(** * mortgage_tools: amortization and refinance economics

    A shallow embedding of the functions of [src/mortgage_tools/app.py]
    ([payment], [remaining_balance], [amortization_schedule],
    [total_interest_from_schedule], [break_even_months], [npv_of_refi],
    [effective_refi_costs], [compute_ltv], [build_savings_stream]) and the
    properties the specification states about them.

    The Python code computes on [float]. The embedding is written once,
    over an interface [Arith] of the float operations the code uses, and
    read at two instances:
    - [Exact.exact]: the real numbers, where [+ - * /] are exact and [**]
      is the real power function. The laws of amortization that the
      program keeps up to the rounding of an amount are stated here.
    - [Binary64.binary64]: IEEE 754 double precision as the kernel
      implements it, every operation rounding to nearest-even the way
      CPython does; only the C library's [pow] is taken as a parameter.
    Properties that hold by the shape of the code alone are proved for
    every instance. Where rounding changes what the program does by more
    than an amount's last digits (a row more, an exception), the program
    is evaluated at [Binary64.binary64].

    A pandas [DataFrame] is modelled by its row count and its labelled
    columns, a numpy array by a list, an exception by [Raise]. The [while]
    loop runs on fuel; [while_loop_fuel] shows the fuel given is enough. *)

From Stdlib Require Import Reals Lra Lia ZArith String List Bool.
From Stdlib Require Import PrimFloat SpecFloat FloatOps FloatAxioms.
Import ListNotations.

Set Implicit Arguments.

(** ** Python outcomes *)

(** The exceptions the modelled code can raise. *)
Inductive exn : Type :=
| ZeroDivisionError
| OverflowError
| ValueError
| TypeError
| KeyError (key : string).

(** A call either returns a value or raises. *)
Inductive result (A : Type) : Type :=
| Ok (a : A)
| Raise (e : exn).

Arguments Ok {A} a.
Arguments Raise {A} e.

Definition bind {A B : Type} (m : result A) (k : A -> result B) : result B :=
  match m with
  | Ok a => k a
  | Raise e => Raise e
  end.

Notation "x <- m ;; k" := (bind m (fun x => k))
  (at level 61, m at next level, right associativity).

(** What [float ** float] evaluates to: a float, or a complex number when a
    negative base meets a fractional exponent. The code never inspects a
    complex value; it only matters that it is not a float. *)
Inductive pyval (F : Type) : Type :=
| PyFloat (x : F)
| PyComplex.

Arguments PyFloat {F} x.
Arguments PyComplex {F}.

(** ** The arithmetic the code runs on *)

Class Arith (F : Type) : Type := {
  lit : Z -> F;                  (* an integer, or a literal such as [100.0] *)
  rel_tol : F;                   (* the literal [1e-09], isclose's default *)
  add : F -> F -> F;
  sub : F -> F -> F;
  mul : F -> F -> F;
  quot : F -> F -> F;            (* [x / y] for a divisor that is not zero *)
  opp : F -> F;
  fabs : F -> F;
  eqb : F -> F -> bool;
  ltb : F -> F -> bool;
  leb : F -> F -> bool;
  isinf : F -> bool;
  power : F -> F -> result (pyval F);   (* [x ** y] *)
  round_int : F -> result Z             (* the builtin [round(x)] *)
}.

Declare Scope py_scope.
Delimit Scope py_scope with py.
Notation "x + y" := (add x y) : py_scope.
Notation "x - y" := (sub x y) : py_scope.
Notation "x * y" := (mul x y) : py_scope.
Notation "- x" := (opp x) : py_scope.
Notation "x =? y" := (eqb x y) (at level 70, no associativity) : py_scope.
Notation "x <? y" := (ltb x y) (at level 70, no associativity) : py_scope.
Notation "x <=? y" := (leb x y) (at level 70, no associativity) : py_scope.

Section Core.

Context {F : Type} {A : Arith F}.

Local Open Scope py_scope.

(** [x / y]: true division raises on a zero divisor. *)
Definition truediv (x y : F) : result F :=
  if y =? lit 0 then Raise ZeroDivisionError else Ok (quot x y).

(** The builtins [min(a, b)] and [max(a, b)]: the first argument is kept
    unless the second compares strictly below (above) it. *)
Definition py_min (a b : F) : F := if b <? a then b else a.
Definition py_max (a b : F) : F := if a <? b then b else a.

(** [math.isclose(a, b)] with its defaults [rel_tol=1e-09], [abs_tol=0.0]. *)
Definition isclose (a b : F) : bool :=
  if a =? b then true
  else if isinf a || isinf b then false
  else
    let diff := fabs (b - a) in
    (diff <=? fabs (rel_tol * b))
    || (diff <=? fabs (rel_tol * a))
    || (diff <=? lit 0).

(** *** Payment calculator *)

Definition payment (principal annual_rate_pct years : F)
    (periods_per_year : Z) : result (pyval F) :=
  let n := years * lit periods_per_year in
  if n =? lit 0 then Ok (PyFloat principal)
  else
    pct <- truediv annual_rate_pct (lit 100) ;;
    r <- truediv pct (lit periods_per_year) ;;
    if isclose r (lit 0) then
      p <- truediv principal n ;;
      Ok (PyFloat p)
    else
      w <- power (lit 1 + r) (- n) ;;
      match w with
      | PyFloat w =>
          p <- truediv (r * principal) (lit 1 - w) ;;
          Ok (PyFloat p)
      | PyComplex => Ok PyComplex
      end.

End Core.

(** ** Schedules and data frames *)

Section Frames.

Context {F : Type} {A : Arith F}.

Local Open Scope py_scope.

(** One dictionary appended to [rows] by [amortization_schedule]. *)
Record Row : Type := mkRow {
  row_period : Z;
  row_interest : F;
  row_principal : F;
  row_extra_principal : F;
  row_payment : F;
  row_balance : F
}.

(** A pandas [DataFrame] as far as the code looks at one: the number of
    rows ([shape[0]]) and the labelled columns, in order. A frame can have
    rows and no column. *)
Record DataFrame : Type := mkDataFrame {
  shape0 : nat;
  columns : list (string * list F)
}.

(** Every column is as long as the frame, and no label occurs twice. *)
Definition well_formed (df : DataFrame) : Prop :=
  NoDup (map fst (columns df))
  /\ Forall (fun c => length (snd c) = shape0 df) (columns df).

Fixpoint lookup (key : string) (cols : list (string * list F))
    : option (list F) :=
  match cols with
  | [] => None
  | (label, values) :: rest =>
      if String.eqb key label then Some values else lookup key rest
  end.

(** [df[key]] *)
Definition getitem (df : DataFrame) (key : string) : result (list F) :=
  match lookup key (columns df) with
  | Some values => Ok values
  | None => Raise (KeyError key)
  end.

(** [pd.DataFrame(rows)] for a list of the dictionaries above: the keys of
    the dictionaries become the columns, so an empty list gives a frame
    without columns. *)
Definition DataFrame_of_rows (rows : list Row) : DataFrame :=
  match rows with
  | [] => mkDataFrame 0 []
  | _ :: _ =>
      mkDataFrame (length rows)
        [ ("period"%string, map (fun x => lit (row_period x)) rows);
          ("interest"%string, map row_interest rows);
          ("principal"%string, map row_principal rows);
          ("extra_principal"%string, map row_extra_principal rows);
          ("payment"%string, map row_payment rows);
          ("balance"%string, map row_balance rows) ]
  end.

(** Where the slice [[:n]] of a sequence of [len] items stops: a negative
    [n] counts from the end. *)
Definition slice_stop (n : Z) (len : nat) : nat :=
  if (0 <=? n)%Z then Nat.min (Z.to_nat n) len
  else Z.to_nat (Z.of_nat len + n).

(** [df.head(n)], that is [df.iloc[:n]]. *)
Definition head (df : DataFrame) (n : Z) : DataFrame :=
  let k := slice_stop n (shape0 df) in
  mkDataFrame k (map (fun c => (fst c, firstn k (snd c))) (columns df)).

(** [pd.concat([a, b])] for two frames that carry the same labels: the rows
    of [b] follow the rows of [a]. *)
Definition concat (a b : DataFrame) : DataFrame :=
  mkDataFrame (shape0 a + shape0 b)
    (map (fun c =>
            (fst c,
             snd c ++ match lookup (fst c) (columns b) with
                      | Some values => values
                      | None => []
                      end))
         (columns a)).

(** Subtraction of two one-dimensional numpy arrays: element by element
    when the lengths agree, a one-element array is broadcast, and any other
    pair of shapes is refused. *)
Definition np_sub (a b : list F) : result (list F) :=
  if (length a =? length b)%nat then
    Ok (map (fun p => fst p - snd p) (combine a b))
  else
    match a, b with
    | [x], _ => Ok (map (fun y => x - y) b)
    | _, [y] => Ok (map (fun x => x - y) a)
    | _, _ => Raise ValueError
    end.

(** *** Schedule generator *)

(** The [while] loop of [amortization_schedule]. [fuel] bounds the number
    of iterations of the model; [None] means it ran out. *)
Fixpoint while_loop (fuel : nat) (r : F) (base_pmt : pyval F)
    (extra_principal_per_period : F) (max_periods : Z)
    (balance : F) (period : Z) (rows : list Row)
    : option (result (list Row)) :=
  if (lit 0 <? balance) && (period <? max_periods + 600)%Z then
    match fuel with
    | O => None
    | S fuel =>
        let period := (period + 1)%Z in
        let interest := balance * r in
        match base_pmt with
        | PyComplex =>
            (* [max(balance - principal_component, 0.0)] compares a complex
               number with a float *)
            Some (Raise TypeError)
        | PyFloat pmt =>
            let principal_component := pmt - interest in
            let extra :=
              py_min extra_principal_per_period
                     (py_max (balance - principal_component) (lit 0)) in
            let principal_pay := py_min (principal_component + extra) balance in
            let total_payment := interest + principal_pay in
            let balance := py_max (balance - principal_pay) (lit 0) in
            let rows :=
              rows ++ [mkRow period interest principal_component extra
                             total_payment balance] in
            if balance <=? lit 0 then Some (Ok rows)
            else while_loop fuel r base_pmt extra_principal_per_period
                            max_periods balance period rows
        end
    end
  else Some (Ok rows).

(** What precedes the loop: the per-period rate, the level payment and the
    nominal period count. *)
Definition schedule_setup (principal annual_rate_pct years : F)
    (periods_per_year : Z) : result (F * pyval F * Z) :=
  pct <- truediv annual_rate_pct (lit 100) ;;
  r <- truediv pct (lit periods_per_year) ;;
  base_pmt <- payment principal annual_rate_pct years periods_per_year ;;
  max_periods <- round_int (years * lit periods_per_year) ;;
  Ok (r, base_pmt, max_periods).

(** The list [rows] when the loop is left. The loop counter starts at 0 and
    stops at [max_periods + 600], which is the fuel given. *)
Definition schedule_rows (principal annual_rate_pct years : F)
    (periods_per_year : Z) (extra_principal_per_period : F)
    : option (result (list Row)) :=
  match schedule_setup principal annual_rate_pct years periods_per_year with
  | Raise e => Some (Raise e)
  | Ok (r, base_pmt, max_periods) =>
      while_loop (Z.to_nat (max_periods + 600)) r base_pmt
                 extra_principal_per_period max_periods principal 0%Z []
  end.

Definition amortization_schedule (principal annual_rate_pct years : F)
    (periods_per_year : Z) (extra_principal_per_period : F)
    : option (result DataFrame) :=
  match schedule_rows principal annual_rate_pct years periods_per_year
                      extra_principal_per_period with
  | None => None
  | Some (Raise e) => Some (Raise e)
  | Some (Ok rows) => Some (Ok (DataFrame_of_rows rows))
  end.

(** *** Schedule aggregator *)

(** [Series.sum()]: the entries added up from zero. *)
Definition series_sum (values : list F) : F :=
  fold_left add values (lit 0).

Definition total_interest_from_schedule (df : DataFrame) : result F :=
  interest <- getitem df "interest"%string ;;
  Ok (series_sum interest).

(** *** Savings stream builder *)

(** The padding step, which the source writes out once for each schedule:
    a frame that ends before the horizon is extended with rows of zeros. *)
Definition pad_to_horizon (df : DataFrame) (months : Z) : DataFrame :=
  if (Z.of_nat (shape0 df) <? months)%Z then
    let pad_len := Z.to_nat (months - Z.of_nat (shape0 df)) in
    let pad_df :=
      mkDataFrame pad_len
        (map (fun c => (fst c, repeat (lit 0) pad_len)) (columns df)) in
    concat df pad_df
  else df.

Definition build_savings_stream (cur_sched new_sched : DataFrame)
    (months : Z) (cur_pmi new_pmi : F) : result (list F) :=
  let cur := head cur_sched months in
  let new := head new_sched months in
  let cur := pad_to_horizon cur months in
  let new := pad_to_horizon new months in
  cur_payment <- getitem cur "payment"%string ;;
  let cur_total := map (fun x => x + cur_pmi) cur_payment in
  new_payment <- getitem new "payment"%string ;;
  let new_total := map (fun x => x + new_pmi) new_payment in
  np_sub cur_total new_total.

End Frames.

Arguments Row F : clear implicits.
Arguments DataFrame F : clear implicits.

(** ** Exact arithmetic: the real numbers *)

Module Exact.

Local Open Scope R_scope.

Definition R_eqb (x y : R) : bool := if Req_dec_T x y then true else false.
Definition R_ltb (x y : R) : bool := if Rlt_dec x y then true else false.
Definition R_leb (x y : R) : bool := if Rle_dec x y then true else false.

(** [round(x)] on a float: to the nearest integer, a tie to the even one. *)
Definition round_half_even (x : R) : Z :=
  let f := Zfloor x in
  let d := x - IZR f in
  if R_ltb d (1 / 2) then f
  else if R_ltb (1 / 2) d then (f + 1)%Z
  else if Z.even f then f else (f + 1)%Z.

(** [x ** y] on floats, read on the reals, in the order [float.__pow__]
    decides: anything to the power 0 is 1; zero cannot be raised to a
    negative power; a negative base has a float power only at a whole
    exponent, and a complex one otherwise; a positive base gives the real
    power. *)
Definition real_pow (x y : R) : result (pyval R) :=
  if R_eqb y 0 then Ok (PyFloat 1)
  else if R_eqb x 0 then
    if R_ltb y 0 then Raise ZeroDivisionError else Ok (PyFloat 0)
  else if R_ltb x 0 then
    if R_eqb y (IZR (Zfloor y)) then Ok (PyFloat (powerRZ x (Zfloor y)))
    else Ok PyComplex
  else Ok (PyFloat (Rpower x y)).

#[export] Instance exact : Arith R := {|
  lit := IZR;
  rel_tol := 1 / 1000000000;
  add := Rplus;
  sub := Rminus;
  mul := Rmult;
  quot := Rdiv;
  opp := Ropp;
  fabs := Rabs;
  eqb := R_eqb;
  ltb := R_ltb;
  leb := R_leb;
  isinf := fun _ => false;
  power := real_pow;
  round_int := fun x => Ok (round_half_even x)
|}.

End Exact.

(** ** Double precision *)

Module Binary64.

Local Open Scope float_scope.

(** An [int] converted to [float]: correctly rounded. *)
Definition of_int (z : Z) : float :=
  SF2Prim (binary_normalize prec emax z 0 false).

(** The integer nearest to [m * 2^e] for a positive [m], a tie to even. *)
Definition nearest_even (m : positive) (e : Z) : Z :=
  match e with
  | Zneg k =>
      let d := Z.pow_pos 2 k in
      let q := (Zpos m / d)%Z in
      let rem := (Zpos m mod d)%Z in
      match (2 * rem ?= d)%Z with
      | Lt => q
      | Gt => (q + 1)%Z
      | Eq => if Z.even q then q else (q + 1)%Z
      end
  | _ => (Zpos m * 2 ^ e)%Z
  end.

Definition round_float (x : float) : result Z :=
  match Prim2SF x with
  | S754_nan => Raise ValueError
  | S754_infinity _ => Raise OverflowError
  | S754_zero _ => Ok 0%Z
  | S754_finite s m e => Ok (cond_Zopp s (nearest_even m e))
  end.

(** Whether a finite float is a whole number. *)
Definition is_whole (x : float) : bool :=
  match Prim2SF x with
  | S754_zero _ => true
  | S754_finite _ m (Zneg k) => (Zpos m mod Z.pow_pos 2 k =? 0)%Z
  | S754_finite _ _ _ => true
  | _ => false
  end.

(** Whether a float is an odd whole number. *)
Definition is_odd_integer (x : float) : bool :=
  match Prim2SF x with
  | S754_finite _ m Z0 => Z.odd (Zpos m)
  | S754_finite _ m (Zneg k) =>
      (Zpos m mod Z.pow_pos 2 k =? 0)%Z && Z.odd (Zpos m / Z.pow_pos 2 k)
  | _ => false
  end.

(** [float.__pow__]: CPython settles the special cases itself, in this
    order, and leaves a finite positive base other than 1 with a finite
    non-zero exponent to the C library's [pow], which is a parameter here;
    an infinite result of [pow] is reported as an overflow. *)
Definition float_pow (libm_pow : float -> float -> float) (x y : float)
    : result (pyval float) :=
  if y =? 0 then Ok (PyFloat 1)
  else if is_nan x then Ok (PyFloat x)
  else if is_nan y then Ok (PyFloat (if x =? 1 then 1 else y))
  else if is_infinity y then
    if abs x =? 1 then Ok (PyFloat 1)
    else if Bool.eqb (0 <? y) (1 <? abs x) then Ok (PyFloat (abs y))
    else Ok (PyFloat 0)
  else if is_infinity x then
    if 0 <? y then Ok (PyFloat (if is_odd_integer y then x else abs x))
    else
      Ok (PyFloat (if is_odd_integer y && get_sign x then neg_zero else 0))
  else if x =? 0 then
    if y <? 0 then Raise ZeroDivisionError
    else Ok (PyFloat (if is_odd_integer y then x else 0))
  else if (x <? 0) && negb (is_whole y) then Ok PyComplex
  else
    let negate_result := (x <? 0) && is_odd_integer y in
    let x := abs x in
    if x =? 1 then Ok (PyFloat (if negate_result then -1 else 1))
    else
      let z := libm_pow x y in
      if is_infinity z then Raise OverflowError
      else if is_nan z then Raise ValueError
      else Ok (PyFloat (if negate_result then - z else z)).

Definition binary64 (libm_pow : float -> float -> float) : Arith float := {|
  lit := of_int;
  rel_tol := 0x1.12e0be826d695p-30;
  add := PrimFloat.add;
  sub := PrimFloat.sub;
  mul := PrimFloat.mul;
  quot := PrimFloat.div;
  opp := PrimFloat.opp;
  fabs := PrimFloat.abs;
  eqb := PrimFloat.eqb;
  ltb := PrimFloat.ltb;
  leb := PrimFloat.leb;
  isinf := PrimFloat.is_infinity;
  power := float_pow libm_pow;
  round_int := round_float
|}.

End Binary64.

(** * Vocabulary of the properties *)

Section Runs.

Context {F : Type} {A : Arith F}.

Local Open Scope py_scope.

(** A function applied to what a call returned. *)
Definition result_map {X Y : Type} (f : X -> Y) (m : result X) : result Y :=
  match m with
  | Ok x => Ok (f x)
  | Raise e => Raise e
  end.

(** The row one pass of the loop body appends. [balance] and [period] are
    the values the pass starts from. *)
Definition loop_body (r pmt extra_principal_per_period balance : F)
    (period : Z) : Row F :=
  let interest := balance * r in
  let principal_component := pmt - interest in
  let extra :=
    py_min extra_principal_per_period
           (py_max (balance - principal_component) (lit 0)) in
  let principal_pay := py_min (principal_component + extra) balance in
  mkRow (period + 1) interest principal_component extra
        (interest + principal_pay)
        (py_max (balance - principal_pay) (lit 0)).

(** The loop condition. *)
Definition loop_cond (max_periods : Z) (balance : F) (period : Z) : bool :=
  (lit 0 <? balance) && (period <? max_periods + 600)%Z.

(** A run of the loop from [balance] and [period]: the loop condition holds
    before every row and fails after the last one unless the [break] was
    taken there; every row is what the body computes from the state the
    previous row left. *)
Fixpoint run (r pmt e : F) (m : Z) (balance : F) (period : Z)
    (rows : list (Row F)) : Prop :=
  match rows with
  | [] => loop_cond m balance period = false
  | row :: rest =>
      loop_cond m balance period = true
      /\ row = loop_body r pmt e balance period
      /\ if row_balance row <=? lit 0 then rest = []
         else run r pmt e m (row_balance row) (period + 1) rest
  end.

(** The balance row [i] starts from: the principal for the first row, the
    balance of the row before for the others. *)
Definition prev_balance (principal : F) (rows : list (Row F)) (i : nat) : F :=
  match i with
  | O => principal
  | S j => match nth_error rows j with
           | Some row => row_balance row
           | None => principal
           end
  end.

(** The payments of a schedule of [len] rows over a horizon: the first
    rows up to the horizon, then zeros up to it. *)
Definition horizon_payments (payments : list F) (len : nat) (months : Z)
    : list F :=
  let k := slice_stop months len in
  firstn k payments
  ++ (if (Z.of_nat k <? months)%Z
      then repeat (lit 0) (Z.to_nat (months - Z.of_nat k))
      else []).

End Runs.

(** The frames of the test suite: a payment and an interest column. *)
Definition payments_frame {F : Type} (payments interest : list F)
    : DataFrame F :=
  mkDataFrame (length payments)
    [("payment"%string, payments); ("interest"%string, interest)].

(** A frame with a payment column only. *)
Definition payment_frame {F : Type} (payments : list F) : DataFrame F :=
  mkDataFrame (length payments) [("payment"%string, payments)].

Section ExactVocabulary.

Import Exact.
Local Open Scope R_scope.

(** The per-period rate [annual_rate_pct / 100 / periods_per_year]. *)
Definition period_rate (annual_rate_pct : R) (periods_per_year : Z) : R :=
  annual_rate_pct / 100 / IZR periods_per_year.

(** [pmt] is the level payment of a loan of [P] at the per-period rate [r]
    over [n] periods. *)
Definition level_payment (P r n pmt : R) : Prop :=
  (r = 0 /\ pmt = P / n)
  \/ (0 < r
      /\ 0 < 1 - Rpower (1 + r) (- n) < 1
      /\ pmt = r * P / (1 - Rpower (1 + r) (- n))).

(** The balance after [k] full payments if nothing were capped at zero:
    [u 0 = P], [u (k + 1) = u k (1 + r) - pmt]. *)
Fixpoint unclamped (r pmt P : R) (k : nat) : R :=
  match k with
  | O => P
  | S k => unclamped r pmt P k * (1 + r) - pmt
  end.

(** From the balance [prev], each row ends at what is left after its
    principal and its extra, never below zero; the balance does not rise;
    and a row that ends at zero is the last one. *)
Fixpoint balances_decline (prev : R) (rows : list (Row R)) : Prop :=
  match rows with
  | [] => True
  | row :: rest =>
      row_balance row
      = Rmax (prev - (row_principal row + row_extra_principal row)) 0
      /\ row_balance row <= prev
      /\ (row_balance row = 0 -> rest = [])
      /\ balances_decline (row_balance row) rest
  end.

(** The one row of the schedule of 1200 at 0% over 1/32 of a year: the
    term is 0.375 periods, the payment 3200, and the row pays the whole
    balance. *)
Definition short_term_row : Row R := mkRow 1 0 3200 0 1200 0.

End ExactVocabulary.

(** Reads the operations of [exact] as the real ones, leaving the real
    functions themselves alone. *)
Ltac exact_ops :=
  cbn [lit rel_tol add sub mul quot opp fabs eqb ltb leb isinf power
       round_int Exact.exact bind].

(** * The rest of the module *)

(** ** Balance projector, break-even, NPV, costs and LTV *)

Section Economics.

Context {F : Type} {A : Arith F}.

Local Open Scope py_scope.

(** Float arithmetic with a value that may be complex: a complex operand
    gives a complex result. *)
Definition pyval_map (f : F -> F) (v : pyval F) : pyval F :=
  match v with
  | PyFloat x => PyFloat (f x)
  | PyComplex => PyComplex
  end.

(** [remaining_balance]. The source evaluates [(1 + r) ** payments_made]
    twice; it is computed once here. The integer [payments_made] meets
    floats as a float. *)
Definition remaining_balance (original_principal annual_rate_pct
    years_total : F) (payments_made : Z) (periods_per_year : Z)
    : result (pyval F) :=
  pct <- truediv annual_rate_pct (lit 100) ;;
  r <- truediv pct (lit periods_per_year) ;;
  pmt <- payment original_principal annual_rate_pct years_total
                 periods_per_year ;;
  if isclose r (lit 0) then
    Ok (pyval_map (fun pmt => original_principal - pmt * lit payments_made)
                  pmt)
  else
    growth <- power (lit 1 + r) (lit payments_made) ;;
    match growth with
    | PyFloat g =>
        annuity <- truediv (g - lit 1) r ;;
        Ok (pyval_map (fun pmt => original_principal * g - pmt * annuity)
                      pmt)
    | PyComplex => Ok PyComplex
    end.

(** [break_even_months]: [None] when there is nothing saved each month. *)
Definition break_even_months (total_costs monthly_savings : F)
    : result (option F) :=
  if monthly_savings <=? lit 0 then Ok None
  else
    months <- truediv total_costs monthly_savings ;;
    Ok (Some months).

(** [npv_of_refi]. numpy raises a float to an array of integers element by
    element and without exceptions; that operation, [np_power], is an
    argument. [np.sum] is read as [series_sum]: numpy adds in another
    order, which matters to the rounding only. *)
Definition npv_of_refi (np_power : F -> Z -> F)
    (monthly_savings_stream : list F)
    (monthly_discount_rate upfront_costs : F) : F :=
  let months :=
    map Z.of_nat (seq 1 (length monthly_savings_stream)) in
  let discount_factors :=
    map (fun m => np_power (lit 1 + monthly_discount_rate) (- m)%Z) months in
  let pv_savings :=
    series_sum (map (fun p => fst p * snd p)
                    (combine monthly_savings_stream discount_factors)) in
  pv_savings - upfront_costs.

(** The dataclass [RefiOffer]. *)
Record RefiOffer : Type := mkRefiOffer {
  new_principal : F;
  new_apr_pct : F;
  term_years : Z;
  points_pct_of_loan : F;
  lender_credits : F;
  other_closing_costs : F;
  new_monthly_pmi : F;
  extra_principal_per_month : F
}.

(** [effective_refi_costs] *)
Definition effective_refi_costs (offer : RefiOffer) : result F :=
  pct <- truediv (points_pct_of_loan offer) (lit 100) ;;
  let points_cost := pct * new_principal offer in
  Ok (py_max (points_cost - lender_credits offer) (lit 0)
      + other_closing_costs offer).

(** What [compute_ltv] returns: a ratio, or [float("inf")]. *)
Inductive ltv : Type :=
| Ratio (x : F)
| InfiniteLtv.

(** [compute_ltv] *)
Definition compute_ltv (principal_owed home_value : F) : result ltv :=
  if home_value <=? lit 0 then Ok InfiniteLtv
  else
    ratio <- truediv principal_owed home_value ;;
    Ok (Ratio ratio).

End Economics.

Arguments RefiOffer F : clear implicits.
Arguments ltv F : clear implicits.

(** ** Vocabulary of the further properties *)

Section FurtherVocabulary.

Import Exact.
Local Open Scope R_scope.

(** numpy's [power] of a float by an integer, on the reals: defined for a
    base that is not zero. *)
Definition real_np_power (x : R) (k : Z) : R := powerRZ x k.

(** The balance the schedule ends at: the principal when there is no row. *)
Definition final_balance (principal : R) (rows : list (Row R)) : R :=
  prev_balance principal rows (length rows).

(** The entries of [stream] discounted one by one: the first by [q ^ k],
    the next by [q ^ (k + 1)], and so on. *)
Fixpoint present_value (q : R) (k : nat) (stream : list R) : R :=
  match stream with
  | [] => 0
  | s :: rest => s * / q ^ k + present_value q (S k) rest
  end.

End FurtherVocabulary.

(** * Properties *)

(** ** The test suite, run on the embedding in double precision *)

Section TestSuite.

Variable libm_pow : float -> float -> float.

Let b64 := Binary64.binary64 libm_pow.

(** [test_payment_zero_rate] *)
Example test_payment_zero_rate :
  payment (A := b64) 300000%float 0%float 30%float 12
  = Ok (PyFloat 0x1.a0aaaaaaaaaabp+9%float).
Proof. vm_compute. reflexivity. Qed.

(** [test_payment_zero_term] *)
Example test_payment_zero_term :
  payment (A := b64) 100000%float 5%float 0%float 12
  = Ok (PyFloat 100000%float).
Proof. vm_compute. reflexivity. Qed.

(** [test_build_savings_stream]: the current schedule is the shorter one. *)
Example test_build_savings_stream :
  build_savings_stream (A := b64)
    (payment_frame (repeat 1000%float 24))
    (payment_frame (repeat 800%float 36)) 30 50%float 25%float
  = Ok (repeat 225%float 24 ++ repeat (-775)%float 6).
Proof. vm_compute. reflexivity. Qed.

(** A zero-rate schedule that does end on its nominal count: 1200 over one
    year is twelve rows of 100. *)
Example twelve_rows_of_100 :
  option_map (result_map (map (@row_balance float)))
    (schedule_rows (A := b64) 1200%float 0%float 1%float 12 0%float)
  = Some (Ok [1100; 1000; 900; 800; 700; 600; 500; 400; 300; 200; 100;
              0]%float).
Proof. vm_compute. reflexivity. Qed.

End TestSuite.

(** ** The loop, for any arithmetic *)

Section Loop.

Context {F : Type} {A : Arith F}.

Local Open Scope py_scope.

(** The rows already collected are a prefix of the result. *)
Lemma while_loop_acc fuel r base e m : forall balance period rows,
  while_loop fuel r base e m balance period rows
  = option_map (result_map (app rows))
               (while_loop fuel r base e m balance period []).
Proof.
  induction fuel as [|fuel IH]; intros balance period rows; simpl.
  - destruct (_ && _); simpl; [reflexivity | now rewrite app_nil_r].
  - destruct (_ && _); simpl; [| now rewrite app_nil_r].
    destruct base as [pmt|]; [| reflexivity].
    destruct (_ <=? _).
    + reflexivity.
    + rewrite IH. symmetry. rewrite IH.
      destruct (while_loop fuel _ _ _ _ _ _ []) as [[new|err]|]; simpl;
        [now rewrite <- app_assoc | reflexivity | reflexivity].
Qed.

(** One unfolding of the loop, on the rows it adds. *)
Lemma while_loop_unfold fuel r pmt e m balance period :
  while_loop (S fuel) r (PyFloat pmt) e m balance period []
  = if loop_cond m balance period then
      let row := loop_body r pmt e balance period in
      if row_balance row <=? lit 0 then Some (Ok [row])
      else option_map (result_map (cons row))
             (while_loop fuel r (PyFloat pmt) e m
                         (row_balance row) (period + 1) [])
    else Some (Ok []).
Proof.
  unfold loop_cond. simpl. destruct (_ && _); [| reflexivity].
  unfold loop_body; simpl.
  destruct (_ <=? _); [reflexivity |].
  now rewrite while_loop_acc.
Qed.

Lemma while_loop_run fuel r pmt e m : forall balance period rows,
  while_loop fuel r (PyFloat pmt) e m balance period [] = Some (Ok rows) ->
  run r pmt e m balance period rows.
Proof.
  induction fuel as [|fuel IH]; intros balance period rows.
  - simpl. fold (loop_cond m balance period).
    destruct (loop_cond _ _ _) eqn:C; [discriminate |].
    now intros [= <-].
  - rewrite while_loop_unfold.
    destruct (loop_cond _ _ _) eqn:C; [| now intros [= <-]].
    cbv zeta.
    destruct (_ <=? _) eqn:Cz.
    + intros [= <-]. cbn [run]. now rewrite Cz.
    + destruct (while_loop fuel _ _ _ _ _ _ []) as [[new|err]|] eqn:W;
        simpl; try discriminate.
      intros [= <-]. cbn [run]. rewrite Cz. auto.
Qed.

(** The loop counter is the measure: fuel for the periods left before the
    cap is enough, whatever the balances do. *)
Lemma while_loop_fuel fuel r base e m : forall balance period rows,
  (m + 600 - period <= Z.of_nat fuel)%Z ->
  while_loop fuel r base e m balance period rows <> None.
Proof.
  induction fuel as [|fuel IH]; intros balance period rows Hfuel; simpl.
  - destruct (lit 0 <? balance); simpl; [| discriminate].
    destruct (period <? m + 600)%Z eqn:C; [| discriminate].
    apply Z.ltb_lt in C. lia.
  - destruct (_ && _); [| discriminate].
    destruct base as [pmt|]; [| discriminate].
    destruct (_ <=? _); [discriminate |].
    apply IH. lia.
Qed.

(** A run never has more rows than periods were left before the cap, and
    the rows are numbered from the period after the starting one. *)
Lemma run_length r pmt e m : forall rows balance period,
  run r pmt e m balance period rows ->
  (Z.of_nat (length rows) <= Z.max 0 (m + 600 - period))%Z.
Proof.
  induction rows as [|row rest IH]; intros balance period; simpl.
  - lia.
  - intros (C & _ & Hrest).
    apply andb_true_iff in C as [_ C]. apply Z.ltb_lt in C.
    destruct (_ <=? _).
    + subst rest. simpl. lia.
    + apply IH in Hrest. lia.
Qed.

Lemma run_periods r pmt e m : forall rows balance period i row,
  run r pmt e m balance period rows ->
  nth_error rows i = Some row ->
  row_period row = (period + 1 + Z.of_nat i)%Z.
Proof.
  induction rows as [|row0 rest IH]; intros balance period i row; simpl.
  - destruct i; discriminate.
  - intros (_ & Hrow & Hrest). destruct i as [|i]; simpl.
    + intros [= <-]. subst row0. simpl. lia.
    + intros Hi. destruct (_ <=? _).
      * subst rest. destruct i; discriminate.
      * rewrite (IH _ _ _ _ Hrest Hi). lia.
Qed.

End Loop.

(** ** Exact arithmetic: reading the operations *)

Section ExactBasics.

Import Exact.
Local Open Scope R_scope.

Lemma R_ltb_true x y : x < y -> R_ltb x y = true.
Proof. intros H. unfold R_ltb. now destruct (Rlt_dec x y). Qed.

Lemma R_ltb_false x y : y <= x -> R_ltb x y = false.
Proof. intros H. unfold R_ltb. destruct (Rlt_dec x y); [lra | reflexivity]. Qed.

Lemma R_leb_true x y : x <= y -> R_leb x y = true.
Proof. intros H. unfold R_leb. now destruct (Rle_dec x y). Qed.

Lemma R_leb_false x y : y < x -> R_leb x y = false.
Proof. intros H. unfold R_leb. destruct (Rle_dec x y); [lra | reflexivity]. Qed.

Lemma R_eqb_true x y : x = y -> R_eqb x y = true.
Proof. intros H. unfold R_eqb. now destruct (Req_dec_T x y). Qed.

Lemma R_eqb_false x y : x <> y -> R_eqb x y = false.
Proof. intros H. unfold R_eqb. now destruct (Req_dec_T x y). Qed.

Lemma R_ltb_lt x y : R_ltb x y = true <-> x < y.
Proof.
  unfold R_ltb. destruct (Rlt_dec x y); split; auto; discriminate.
Qed.

Lemma R_ltb_ge x y : R_ltb x y = false <-> y <= x.
Proof.
  unfold R_ltb. destruct (Rlt_dec x y); split; auto; try discriminate; lra.
Qed.

Lemma R_leb_le x y : R_leb x y = true <-> x <= y.
Proof.
  unfold R_leb. destruct (Rle_dec x y); split; auto; discriminate.
Qed.

Lemma R_leb_gt x y : R_leb x y = false <-> y < x.
Proof.
  unfold R_leb. destruct (Rle_dec x y); split; auto; try discriminate; lra.
Qed.

Lemma R_eqb_eq x y : R_eqb x y = true <-> x = y.
Proof.
  unfold R_eqb. destruct (Req_dec_T x y); split; auto; discriminate.
Qed.

Lemma py_min_Rmin (a b : R) : py_min a b = Rmin a b.
Proof.
  unfold py_min, Rmin; cbn. unfold R_ltb.
  destruct (Rlt_dec b a), (Rle_dec a b); lra.
Qed.

Lemma py_max_Rmax (a b : R) : py_max a b = Rmax a b.
Proof.
  unfold py_max, Rmax; cbn. unfold R_ltb.
  destruct (Rlt_dec a b), (Rle_dec a b); lra.
Qed.

Lemma truediv_exact (x y : R) : y <> 0 -> truediv x y = Ok (x / y).
Proof. intros H. unfold truediv; cbn. now rewrite R_eqb_false. Qed.

Lemma truediv_zero (x : R) : truediv x 0 = Raise ZeroDivisionError.
Proof. unfold truediv; cbn. now rewrite R_eqb_true. Qed.

(** With the default tolerances, only zero is close to zero: the relative
    tolerance scales with the operands, and the absolute one is 0. *)
Lemma isclose_zero (r : R) : isclose r 0 = true <-> r = 0.
Proof.
  unfold isclose; cbn.
  destruct (R_eqb r 0) eqn:E.
  - apply R_eqb_eq in E. tauto.
  - split; [| intros ->; now rewrite R_eqb_true in E].
    intros H. exfalso.
    assert (r <> 0) as Hr by (intros ->; now rewrite R_eqb_true in E).
    assert (0 < Rabs r) as Hpos by now apply Rabs_pos_lt.
    replace (0 - r) with (- r) in H by lra. rewrite Rabs_Ropp in H.
    rewrite Rmult_0_r, Rabs_R0 in H.
    rewrite Rabs_mult in H.
    rewrite (Rabs_pos_eq (1 / 1000000000)) in H by lra.
    rewrite !R_leb_false in H by lra.
    discriminate.
Qed.

End ExactBasics.

(** ** Exact arithmetic: one pass of the loop *)

Section ExactLoop.

Import Exact.
Local Open Scope R_scope.

Lemma loop_cond_exact m (b : R) p :
  loop_cond m b p = true <-> 0 < b /\ (p < m + 600)%Z.
Proof.
  unfold loop_cond; cbn.
  rewrite andb_true_iff, R_ltb_lt, Z.ltb_lt. tauto.
Qed.

Lemma loop_cond_exact_false m (b : R) p :
  loop_cond m b p = false <-> b <= 0 \/ (m + 600 <= p)%Z.
Proof.
  unfold loop_cond; cbn.
  rewrite andb_false_iff, R_ltb_ge, Z.ltb_ge. tauto.
Qed.

(** The fields of the row the body makes, as real expressions. *)
Lemma loop_body_exact (r pmt e b : R) p :
  loop_body r pmt e b p
  = mkRow (p + 1) (b * r) (pmt - b * r)
          (Rmin e (Rmax (b - (pmt - b * r)) 0))
          (b * r + Rmin (pmt - b * r + Rmin e (Rmax (b - (pmt - b * r)) 0)) b)
          (Rmax (b - Rmin (pmt - b * r
                           + Rmin e (Rmax (b - (pmt - b * r)) 0)) b) 0).
Proof.
  unfold loop_body. rewrite !py_min_Rmin, !py_max_Rmax. reflexivity.
Qed.

(** The balance a pass leaves: what remains after the scheduled principal
    and the extra applied, never below zero. *)
Lemma balance_after_row (r pmt e b : R) p :
  let row := loop_body r pmt e b p in
  row_balance row
  = Rmax (b - (row_principal row + row_extra_principal row)) 0.
Proof.
  rewrite loop_body_exact; cbn.
  unfold Rmin, Rmax; repeat destruct (Rle_dec _ _); lra.
Qed.

(** With a non-negative extra, the balance follows the recurrence
    [b' = max(b (1 + r) - pmt - e, 0)]. *)
Lemma balance_step (r pmt e b : R) p :
  0 <= e ->
  row_balance (loop_body r pmt e b p) = Rmax (b * (1 + r) - pmt - e) 0.
Proof.
  intros He. rewrite loop_body_exact; cbn.
  unfold Rmin, Rmax; repeat destruct (Rle_dec _ _); lra.
Qed.

Lemma balance_nonneg (r pmt e b : R) p :
  0 <= row_balance (loop_body r pmt e b p).
Proof. rewrite loop_body_exact; cbn. apply Rmax_r. Qed.

(** The payment of a row is its interest plus the principal actually paid,
    which is capped by the balance the row started from. *)
Lemma payment_of_row (r pmt e b : R) p :
  let row := loop_body r pmt e b p in
  row_payment row
  = row_interest row
    + Rmin (row_principal row + row_extra_principal row) b.
Proof. rewrite loop_body_exact; reflexivity. Qed.

(** If the balance is still positive after the row, nothing was capped. *)
Lemma payment_uncapped (r pmt e b : R) p :
  let row := loop_body r pmt e b p in
  0 < row_balance row ->
  row_payment row
  = row_interest row + row_principal row + row_extra_principal row.
Proof.
  rewrite loop_body_exact; cbn.
  unfold Rmin, Rmax; repeat destruct (Rle_dec _ _); lra.
Qed.

End ExactLoop.

(** ** Exact arithmetic: the level payment *)

Section ExactPayment.

Import Exact.
Local Open Scope R_scope.

Lemma period_rate_sign rate ppy :
  (0 < ppy)%Z ->
  (0 <= rate -> 0 <= period_rate rate ppy)
  /\ (0 < rate -> 0 < period_rate rate ppy)
  /\ (period_rate rate ppy = 0 -> rate = 0).
Proof.
  intros Hppy. apply IZR_lt in Hppy. unfold period_rate.
  assert (0 < / IZR ppy) by now apply Rinv_0_lt_compat.
  unfold Rdiv. repeat split; intros; nra.
Qed.

Lemma Rpower_neg_bounds q n : 1 < q -> 0 < n -> 0 < Rpower q (- n) < 1.
Proof.
  intros Hq Hn. split; [apply exp_pos |].
  rewrite <- (Rpower_O q) by lra.
  apply Rpower_lt; lra.
Qed.

(** At rate zero the payment is the straight-line one. *)
Lemma payment_zero_rate (P years : R) ppy :
  years * IZR ppy <> 0 ->
  payment P 0 years ppy = Ok (PyFloat (P / (years * IZR ppy))).
Proof.
  intros Hn. unfold payment. exact_ops.
  rewrite R_eqb_false by assumption.
  assert (IZR ppy <> 0) as Hppy by (intros E; apply Hn; rewrite E; ring).
  do 2 (rewrite truediv_exact by (assumption || lra); exact_ops).
  assert (0 / 100 / IZR ppy = 0) as -> by (unfold Rdiv; ring).
  rewrite (proj2 (isclose_zero 0) eq_refl).
  now rewrite truediv_exact.
Qed.

(** At a positive rate it is the annuity formula, whose denominator lies
    strictly between 0 and 1. *)
Lemma payment_closed_form (P rate years : R) ppy :
  0 < rate -> (0 < ppy)%Z -> 0 < years ->
  let r := period_rate rate ppy in
  let n := years * IZR ppy in
  payment P rate years ppy
  = Ok (PyFloat (r * P / (1 - Rpower (1 + r) (- n))))
  /\ 0 < 1 - Rpower (1 + r) (- n) < 1.
Proof.
  intros Hrate Hppy Hyears r n.
  pose proof (period_rate_sign rate Hppy) as (_ & Hr & _).
  specialize (Hr Hrate). fold r in Hr.
  apply IZR_lt in Hppy.
  assert (0 < n) as Hn by (unfold n; nra).
  pose proof (@Rpower_neg_bounds (1 + r) n ltac:(lra) Hn) as Hw.
  split; [| lra].
  unfold payment. exact_ops. fold n.
  rewrite R_eqb_false by lra.
  do 2 (rewrite truediv_exact by lra; exact_ops).
  fold (period_rate rate ppy). fold r.
  destruct (isclose r 0) eqn:C.
  - apply isclose_zero in C. lra.
  - unfold real_pow.
    rewrite !R_eqb_false, R_ltb_false by lra. exact_ops.
    now rewrite truediv_exact by lra.
Qed.

End ExactPayment.

(** ** The schedule under its preconditions, in exact arithmetic *)

Section LoopTotal.

Context {F : Type} {A : Arith F}.

(** With a float for the level payment the loop body cannot raise, so with
    fuel for the periods left the loop returns its rows. *)
Lemma while_loop_returns fuel r pmt e m (balance : F) period :
  (m + 600 - period <= Z.of_nat fuel)%Z ->
  exists rows,
    while_loop fuel r (PyFloat pmt) e m balance period [] = Some (Ok rows)
    /\ run r pmt e m balance period rows.
Proof.
  revert balance period.
  induction fuel as [|fuel IH]; intros balance period Hfuel.
  - pose proof (@while_loop_fuel F A 0 r (PyFloat pmt) e m balance period []
                  Hfuel) as Hsome.
    simpl in *. fold (loop_cond m balance period) in *.
    destruct (loop_cond _ _ _) eqn:C; [now elim Hsome |].
    exists []. now split.
  - destruct (IH (row_balance (loop_body r pmt e balance period))
                 (period + 1)%Z ltac:(lia)) as (rest & Hrest & _).
    assert (exists rows,
              while_loop (S fuel) r (PyFloat pmt) e m balance period []
              = Some (Ok rows)) as (rows & Hrows).
    { rewrite while_loop_unfold. destruct (loop_cond _ _ _); [| eauto].
      cbv zeta. destruct (leb _ _); [eauto |].
      rewrite Hrest. simpl. eauto. }
    exists rows. split; [assumption |].
    now apply while_loop_run in Hrows.
Qed.

End LoopTotal.

Section ExactSchedule.

Import Exact.
Local Open Scope R_scope.

Lemma level_payment_covers_interest (P r n pmt : R) :
  0 < P -> 0 < n -> level_payment P r n pmt -> P * r <= pmt /\ 0 < pmt.
Proof.
  intros HP Hn [[-> ->] | (Hr & Hw & ->)].
  - assert (0 < P / n) by now apply Rdiv_lt_0_compat. lra.
  - set (d := 1 - Rpower (1 + r) (- n)) in *.
    assert (0 < r * P) by nra.
    assert (r * P <= r * P / d).
    { apply Rmult_le_reg_r with d; [lra |].
      replace (r * P / d * d) with (r * P) by (field; lra). nra. }
    assert (0 < r * P / d) by (apply Rdiv_lt_0_compat; lra).
    nra.
Qed.

Lemma round_half_even_bounds (x : R) :
  (Zfloor x <= round_half_even x <= Zfloor x + 1)%Z.
Proof.
  unfold round_half_even.
  destruct (R_ltb _ _); [lia |].
  destruct (R_ltb _ _); [lia |].
  destruct (Z.even _); lia.
Qed.

Lemma round_half_even_whole (x : R) :
  x = IZR (Zfloor x) -> round_half_even x = Zfloor x.
Proof.
  intros H. unfold round_half_even. now rewrite R_ltb_true by lra.
Qed.

(** Under the preconditions of the specification the function returns a
    schedule: the rows of a run that starts from the principal, with the
    level payment of the loan. *)
Lemma schedule_rows_exact (P rate years : R) ppy (e : R) :
  0 <= rate -> (0 < ppy)%Z -> 0 < years ->
  let r := period_rate rate ppy in
  let n := years * IZR ppy in
  let m := round_half_even n in
  exists pmt rows,
    payment P rate years ppy = Ok (PyFloat pmt)
    /\ level_payment P r n pmt
    /\ schedule_rows P rate years ppy e = Some (Ok rows)
    /\ run r pmt e m P 0 rows.
Proof.
  intros Hrate Hppy Hyears r n m.
  pose proof (IZR_lt _ _ Hppy) as Hppy'.
  assert (0 < n) as Hn by (unfold n; nra).
  assert (exists pmt, payment P rate years ppy = Ok (PyFloat pmt)
                      /\ level_payment P r n pmt) as (pmt & Hpay & Hlevel).
  { destruct (Req_dec_T rate 0) as [-> | Hne].
    - exists (P / n). split; [apply payment_zero_rate; fold n; lra |].
      left. split; [| reflexivity]. unfold r, period_rate, Rdiv. ring.
    - destruct (@payment_closed_form P rate years ppy ltac:(lra) Hppy Hyears)
        as [Hpay Hw].
      eexists. split; [exact Hpay |]. right.
      pose proof (period_rate_sign rate Hppy) as (_ & Hr & _).
      split; [apply Hr; lra |]. split; [exact Hw | reflexivity]. }
  assert (0 <= m)%Z as Hm.
  { pose proof (round_half_even_bounds n).
    assert (0 <= Zfloor n)%Z by (apply Zfloor_lub; simpl; lra). lia. }
  destruct (@while_loop_returns R exact (Z.to_nat (m + 600)) r pmt e m P 0%Z
              ltac:(lia)) as (rows & Hrows & Hrun).
  exists pmt, rows. repeat split; auto.
  unfold schedule_rows, schedule_setup. exact_ops.
  do 2 (rewrite truediv_exact by lra; exact_ops).
  rewrite Hpay. exact_ops. exact Hrows.
Qed.

End ExactSchedule.

(** ** Reading a returned schedule back *)

Section Inversion.

Context {F : Type} {A : Arith F}.

Lemma schedule_setup_inv (principal rate years : F) ppy r base m :
  schedule_setup principal rate years ppy = Ok (r, base, m) ->
  payment principal rate years ppy = Ok base
  /\ round_int (mul years (lit ppy)) = Ok m
  /\ exists pct, truediv rate (lit 100) = Ok pct
                 /\ truediv pct (lit ppy) = Ok r.
Proof.
  unfold schedule_setup.
  destruct (truediv rate (lit 100)) as [pct|] eqn:E1; cbn [bind];
    [| discriminate].
  destruct (truediv pct (lit ppy)) as [r'|] eqn:E2; cbn [bind];
    [| discriminate].
  destruct (payment _ _ _ _) as [base'|]; cbn [bind]; [| discriminate].
  destruct (round_int _) as [m'|]; cbn [bind]; [| discriminate].
  intros [= <- <- <-]. split; [reflexivity |]. split; [reflexivity |].
  exists pct. now split.
Qed.

(** The rows of a returned schedule are a run from the principal and
    period 0. With a complex level payment a schedule is returned only if
    the loop body was never entered. *)
Lemma schedule_rows_inv (principal rate years : F) ppy e rows :
  schedule_rows principal rate years ppy e = Some (Ok rows) ->
  exists r base m,
    schedule_setup principal rate years ppy = Ok (r, base, m)
    /\ match base with
       | PyFloat pmt => run r pmt e m principal 0 rows
       | PyComplex => rows = []
       end.
Proof.
  unfold schedule_rows.
  destruct (schedule_setup _ _ _ _) as [[[r base] m]|]; [| discriminate].
  intros H. exists r, base, m. split; [reflexivity |].
  destruct base as [pmt|].
  - now apply while_loop_run in H.
  - destruct (Z.to_nat (m + 600)); simpl in H;
      destruct (_ && _); try discriminate; now injection H.
Qed.

Lemma run_nth r pmt e m : forall rows (balance : F) period i row,
  run r pmt e m balance period rows ->
  nth_error rows i = Some row ->
  let prev := prev_balance balance rows i in
  row = loop_body r pmt e prev (period + Z.of_nat i)
  /\ loop_cond m prev (period + Z.of_nat i) = true
  /\ (S i < length rows -> leb (row_balance row) (lit 0) = false).
Proof.
  induction rows as [|row0 rest IH]; intros balance period i row Hrun Hi.
  - destruct i; discriminate.
  - cbn [run] in Hrun. destruct Hrun as (C & Hrow & Hrest).
    destruct i as [|i].
    + injection Hi as <-. cbn [prev_balance]. rewrite Z.add_0_r.
      repeat split; auto. simpl. intros Hlen.
      destruct (leb _ _); [subst rest; simpl in Hlen; lia | reflexivity].
    + cbn [nth_error] in Hi.
      destruct (leb (row_balance row0) (lit 0)).
      { subst rest. destruct i; discriminate. }
      destruct (IH _ _ _ _ Hrest Hi) as (E & C' & L).
      assert (prev_balance balance (row0 :: rest) (S i)
              = prev_balance (row_balance row0) rest i) as Hprev.
      { destruct i as [|j]; [reflexivity |]. cbn [prev_balance nth_error].
        destruct (nth_error rest j) eqn:Ej; [reflexivity |].
        apply nth_error_None in Ej.
        assert (S j < length rest) by (apply nth_error_Some; congruence).
        lia. }
      cbv zeta. rewrite Hprev.
      replace (period + Z.of_nat (S i))%Z
        with (period + 1 + Z.of_nat i)%Z by lia.
      repeat split; auto. simpl. intros Hlen. apply L. lia.
Qed.

End Inversion.

(** ** A worked schedule: 1200 at 0% over 1/32 of a year *)

Section ShortTerm.

Import Exact.
Local Open Scope R_scope.

Lemma short_term_round : round_half_even (1 / 32 * 12) = 0%Z.
Proof.
  unfold round_half_even.
  assert (Zfloor (1 / 32 * 12) = 0%Z) as ->
    by (apply Zfloor_eq; simpl; lra).
  simpl. now rewrite R_ltb_true by lra.
Qed.

Lemma short_term_rows :
  schedule_rows 1200 0 (1 / 32) 12 0 = Some (Ok [short_term_row]).
Proof.
  unfold schedule_rows, schedule_setup. exact_ops.
  do 2 (rewrite truediv_exact by lra; exact_ops).
  rewrite payment_zero_rate by lra. exact_ops.
  rewrite short_term_round.
  change (Z.to_nat (0 + 600)) with (S 599).
  rewrite while_loop_unfold.
  assert (loop_cond 0 1200 0 = true) as ->
    by (apply loop_cond_exact; split; [lra | lia]).
  cbv zeta. rewrite loop_body_exact. cbn [row_balance].
  unfold short_term_row.
  assert (forall a b c d e f a' b' c' d' e' f',
            a = a' -> b = b' -> c = c' -> d = d' -> e = e' -> f = f' ->
            mkRow (F:=R) a b c d e f = mkRow a' b' c' d' e' f') as Hrow
    by (intros; subst; reflexivity).
  exact_ops.
  rewrite R_leb_true
    by (unfold Rmin, Rmax; repeat destruct (Rle_dec _ _); lra).
  do 3 f_equal.
  apply Hrow; try reflexivity;
    unfold Rmin, Rmax; repeat destruct (Rle_dec _ _); lra.
Qed.

End ShortTerm.

(** ** The balance column *)

Section Balances.

Import Exact.
Local Open Scope R_scope.

Lemma run_balances_decline (P r pmt e : R) m :
  0 <= r -> 0 <= e -> P * r <= pmt ->
  forall rows b p,
    b <= P ->
    run r pmt e m b p rows ->
    balances_decline b rows.
Proof.
  intros Hr He Hpmt.
  induction rows as [|row rest IH]; intros b p Hb Hrun; [exact I |].
  cbn [run] in Hrun. destruct Hrun as (C & Hrow & Hrest).
  apply loop_cond_exact in C as [Hpos _].
  assert (row_balance row <= b) as Hle.
  { subst row. rewrite balance_step by assumption.
    apply Rmax_lub; nra. }
  cbn [balances_decline]. repeat split.
  - subst row. apply balance_after_row.
  - exact Hle.
  - intros Hz. rewrite Hz in Hrest. exact_ops.
    revert Hrest. exact_ops. now rewrite R_leb_true by lra.
  - revert Hrest. exact_ops. destruct (R_leb _ _).
    + intros ->. exact I.
    + apply IH. lra.
Qed.

(** C2: for principal > 0, rate >= 0, years > 0 and a non-negative extra
    principal, [amortization_schedule] returns a schedule in which every
    row's balance is max(previous balance - (principal + extra applied), 0),
    the balance never rises from one row to the next (the first row
    starting from the principal), and a row with balance 0 is the last. *)
Theorem schedule_balances_decline (P rate years : R) (ppy : Z) (e : R) :
  0 < P -> 0 <= rate -> 0 < years -> (0 < ppy)%Z -> 0 <= e ->
  exists rows,
    amortization_schedule P rate years ppy e
    = Some (Ok (DataFrame_of_rows rows))
    /\ schedule_rows P rate years ppy e = Some (Ok rows)
    /\ balances_decline P rows.
Proof.
  intros HP Hrate Hyears Hppy He.
  destruct (@schedule_rows_exact P rate years ppy e Hrate Hppy Hyears)
    as (pmt & rows & _ & Hlevel & Hrows & Hrun).
  exists rows. unfold amortization_schedule. rewrite Hrows.
  repeat split.
  pose proof (IZR_lt _ _ Hppy) as Hppy'.
  apply level_payment_covers_interest in Hlevel as [Hpmt _];
    [| assumption | simpl in Hppy'; nra].
  apply (@run_balances_decline P (period_rate rate ppy) pmt e
           (round_half_even (years * IZR ppy))) with (p := 0%Z);
    try assumption; [| lra].
  now apply period_rate_sign.
Qed.

Lemma schedule_balances_decline_witness :
  exists rows,
    amortization_schedule 1200 0 1 12 0 = Some (Ok (DataFrame_of_rows rows))
    /\ schedule_rows 1200 0 1 12 0 = Some (Ok rows)
    /\ balances_decline 1200 rows.
Proof.
  apply (@schedule_balances_decline 1200 0 1 12 0); lra || lia.
Defined.

End Balances.

(** ** Payment against interest, principal and extra *)

Section RowIdentityAny.

Context {F : Type} {A : Arith F}.

(** Under any arithmetic, double precision included, a row's payment is
    its interest plus the smaller of principal + extra and the balance the
    row started from, and its principal field is the level payment minus
    its interest. *)
Lemma row_payment_capped (principal rate years : F) ppy e rows i row :
  schedule_rows principal rate years ppy e = Some (Ok rows) ->
  nth_error rows i = Some row ->
  row_payment row
  = add (row_interest row)
        (py_min (add (row_principal row) (row_extra_principal row))
                (prev_balance principal rows i))
  /\ exists pmt,
       payment principal rate years ppy = Ok (PyFloat pmt)
       /\ row_principal row = sub pmt (row_interest row).
Proof.
  intros Hrows Hi.
  apply schedule_rows_inv in Hrows as (r & base & m & Hsetup & Hbase).
  apply schedule_setup_inv in Hsetup as (Hpay & _).
  destruct base as [pmt|]; [| subst rows; destruct i; discriminate].
  destruct (run_nth _ _ _ _ _ _ _ _ Hbase Hi) as (Hrow & _).
  rewrite Hrow. split; [reflexivity |].
  exists pmt. now split.
Qed.

End RowIdentityAny.

Section RowIdentity.

Import Exact.
Local Open Scope R_scope.

(** C10: in every row of a returned schedule, payment = interest +
    min(principal + extra_principal, previous balance), where the principal
    field is the level payment minus the interest, uncapped; in every row
    but the last, payment = interest + principal + extra_principal; and in
    a last row the principal field can be strictly more than the principal
    paid, payment - interest (1200 at 0% over 1/32 of a year: 3200 against
    1200). *)
Theorem row_payment_identity (P rate years : R) (ppy : Z) (e : R)
    (rows : list (Row R)) :
  schedule_rows P rate years ppy e = Some (Ok rows) ->
  (forall i row,
      nth_error rows i = Some row ->
      let prev := prev_balance P rows i in
      row_payment row
      = row_interest row
        + Rmin (row_principal row + row_extra_principal row) prev
      /\ (exists pmt, payment P rate years ppy = Ok (PyFloat pmt)
                      /\ row_principal row = pmt - row_interest row)
      /\ ((S i < length rows)%nat ->
          row_payment row
          = row_interest row + row_principal row + row_extra_principal row))
  /\ (exists rows' last_row,
         schedule_rows 1200 0 (1 / 32) 12 0 = Some (Ok (rows' ++ [last_row]))
         /\ row_payment last_row - row_interest last_row
            < row_principal last_row).
Proof.
  intros Hrows. split.
  - intros i row Hi prev.
    apply schedule_rows_inv in Hrows as (r & base & m & Hsetup & Hbase).
    apply schedule_setup_inv in Hsetup as (Hpay & _).
    destruct base as [pmt|]; [| subst rows; destruct i; discriminate].
    destruct (run_nth _ _ _ _ _ _ _ _ Hbase Hi) as (Hrow & _ & Hlast).
    fold prev in Hrow. repeat split.
    + rewrite Hrow. apply payment_of_row.
    + exists pmt. split; [assumption |].
      rewrite Hrow, loop_body_exact. reflexivity.
    + intros Hlen. specialize (Hlast Hlen).
      apply R_leb_gt in Hlast.
      rewrite Hrow in *. now apply payment_uncapped.
  - exists [], short_term_row.
    split; [exact short_term_rows |]. simpl. lra.
Qed.

Lemma row_payment_identity_witness :
  (forall i row,
      nth_error [short_term_row] i = Some row ->
      let prev := prev_balance 1200 [short_term_row] i in
      row_payment row
      = row_interest row
        + Rmin (row_principal row + row_extra_principal row) prev
      /\ (exists pmt, payment 1200 0 (1 / 32) 12 = Ok (PyFloat pmt)
                      /\ row_principal row = pmt - row_interest row)
      /\ ((S i < length [short_term_row])%nat ->
          row_payment row
          = row_interest row + row_principal row + row_extra_principal row))
  /\ (exists rows' last_row,
         schedule_rows 1200 0 (1 / 32) 12 0 = Some (Ok (rows' ++ [last_row]))
         /\ row_payment last_row - row_interest last_row
            < row_principal last_row).
Proof.
  apply (@row_payment_identity 1200 0 (1 / 32) 12 0).
  exact short_term_rows.
Defined.

End RowIdentity.

(** ** Pay-off without extra principal *)

Section PayOff.

Import Exact.
Local Open Scope R_scope.

Lemma unclamped_zero_rate (P n : R) k :
  n <> 0 -> unclamped 0 (P / n) P k = P * (n - INR k) / n.
Proof.
  intros Hn. induction k as [|k IH].
  - simpl. field. assumption.
  - cbn [unclamped]. rewrite IH, S_INR. field. assumption.
Qed.

Lemma unclamped_closed_form (P r n : R) k :
  let w := Rpower (1 + r) (- n) in
  1 - w <> 0 ->
  unclamped r (r * P / (1 - w)) P k * (1 - w) = P * (1 - w * (1 + r) ^ k).
Proof.
  intros w Hw. induction k as [|k IH].
  - simpl. ring.
  - cbn [unclamped].
    replace ((unclamped r (r * P / (1 - w)) P k * (1 + r)
              - r * P / (1 - w)) * (1 - w))
      with ((1 + r) * (unclamped r (r * P / (1 - w)) P k * (1 - w)) - r * P)
      by (field; assumption).
    rewrite IH. simpl. ring.
Qed.

Lemma Rpower_lt_1 (q x : R) : 1 < q -> (Rpower q x < 1 <-> x < 0).
Proof.
  intros Hq. rewrite <- (Rpower_O q) at 1 by lra. split.
  - intros H. destruct (Rlt_dec x 0) as [|Hge]; [assumption |].
    exfalso. apply Rnot_lt_le in Hge.
    pose proof (Rle_Rpower q 0 x ltac:(lra) Hge). lra.
  - now apply Rpower_lt.
Qed.

(** The unclamped balance is positive exactly before the term is over. *)
Lemma unclamped_sign (P r n pmt : R) k :
  0 < P -> 0 < n -> level_payment P r n pmt ->
  (0 < unclamped r pmt P k <-> INR k < n).
Proof.
  intros HP Hn [[-> ->] | (Hr & Hw & ->)].
  - rewrite unclamped_zero_rate by lra.
    split; intros H.
    + destruct (Rlt_dec (INR k) n) as [|Hge]; [assumption | exfalso].
      apply Rnot_lt_le in Hge.
      assert (P * (n - INR k) / n <= 0); [| lra].
      unfold Rdiv. assert (0 < / n) by now apply Rinv_0_lt_compat.
      assert (P * (n - INR k) <= 0) by nra. nra.
    + apply Rdiv_lt_0_compat; nra.
  - set (w := Rpower (1 + r) (- n)) in *.
    pose proof (@unclamped_closed_form P r n k ltac:(fold w; lra)) as Hu.
    cbv zeta in Hu. fold w in Hu.
    set (u := unclamped r (r * P / (1 - w)) P k) in *.
    assert (w * (1 + r) ^ k = Rpower (1 + r) (INR k - n)) as Hpow.
    { unfold w. rewrite <- Rpower_pow by lra.
      rewrite <- Rpower_plus. f_equal. ring. }
    rewrite Hpow in Hu.
    pose proof (@Rpower_lt_1 (1 + r) (INR k - n) ltac:(lra)) as Hlt.
    split; intros H.
    + assert (Rpower (1 + r) (INR k - n) < 1) by nra.
      apply Hlt in H0. lra.
    + assert (Rpower (1 + r) (INR k - n) < 1) by (apply Hlt; lra).
      nra.
Qed.

(** While the unclamped balance stays positive the loop follows it; the
    first time it is not, the row ends at zero and the loop stops. *)
Lemma run_payoff (P r pmt : R) m :
  forall d k p rows,
    (forall j, (k <= j <= k + d)%nat -> 0 < unclamped r pmt P j) ->
    unclamped r pmt P (k + S d) <= 0 ->
    (p + Z.of_nat (S d) <= m + 600)%Z ->
    run r pmt 0 m (unclamped r pmt P k) p rows ->
    exists front last_row,
      rows = front ++ [last_row]
      /\ length front = d
      /\ row_balance last_row = 0.
Proof.
  induction d as [|d IH]; intros k p rows Hpos Hend Hcap Hrun.
  - assert (0 < unclamped r pmt P k) as Hk by (apply Hpos; lia).
    destruct rows as [|row rest]; cbn [run] in Hrun.
    { apply loop_cond_exact_false in Hrun. destruct Hrun; [lra | lia]. }
    destruct Hrun as (_ & Hrow & Hrest).
    assert (row_balance row = 0) as Hz.
    { rewrite Hrow, balance_step by lra.
      replace (k + 1)%nat with (S k) in Hend by lia. cbn [unclamped] in Hend.
      rewrite Rmax_right; lra. }
    revert Hrest. exact_ops. rewrite Hz, R_leb_true by lra. intros ->.
    exists [], row. auto.
  - assert (0 < unclamped r pmt P k) as Hk by (apply Hpos; lia).
    assert (0 < unclamped r pmt P (S k)) as Hk' by (apply Hpos; lia).
    destruct rows as [|row rest]; cbn [run] in Hrun.
    { apply loop_cond_exact_false in Hrun. destruct Hrun; [lra | lia]. }
    destruct Hrun as (_ & Hrow & Hrest).
    assert (row_balance row = unclamped r pmt P (S k)) as Hb.
    { rewrite Hrow, balance_step by lra. cbn [unclamped] in *.
      rewrite Rmax_left; lra. }
    revert Hrest. exact_ops. rewrite Hb, R_leb_false by lra. intros Hrest.
    destruct (IH (S k) (p + 1)%Z rest) as (front & last_row & -> & Hlen & Hz).
    + intros j Hj. apply Hpos. lia.
    + replace (S k + S d)%nat with (k + S (S d))%nat by lia. exact Hend.
    + lia.
    + exact Hrest.
    + exists (row :: front), last_row. simpl. auto.
Qed.

End PayOff.

Section NominalCount.

Import Exact.
Local Open Scope R_scope.

(** Without extra principal the schedule has one row for every period the
    term covers or touches, [ceil(years * periods_per_year)] of them, and
    the last row ends at zero. *)
Lemma payoff_periods (P rate years : R) (ppy : Z) :
  0 < P -> 0 <= rate -> 0 < years -> (0 < ppy)%Z ->
  exists front last_row,
    schedule_rows P rate years ppy 0 = Some (Ok (front ++ [last_row]))
    /\ Z.of_nat (length (front ++ [last_row])) = Zceil (years * IZR ppy)
    /\ row_balance last_row = 0.
Proof.
  intros HP Hrate Hyears Hppy.
  destruct (@schedule_rows_exact P rate years ppy 0 Hrate Hppy Hyears)
    as (pmt & rows & _ & Hlevel & Hrows & Hrun).
  set (r := period_rate rate ppy) in *.
  set (n := years * IZR ppy) in *.
  pose proof (IZR_lt _ _ Hppy) as Hppy'.
  assert (0 < n) as Hn by (unfold n; simpl in Hppy'; nra).
  pose proof (Zceil_bound n) as [Hlo Hhi].
  assert (1 <= Zceil n)%Z as Hceil.
  { assert (0 < Zceil n)%Z; [| lia]. apply lt_IZR. simpl. lra. }
  set (K := Z.to_nat (Zceil n)).
  assert (INR K = IZR (Zceil n)) as HK
    by (unfold K; rewrite INR_IZR_INZ, Z2Nat.id by lia; reflexivity).
  destruct (@run_payoff P r pmt (round_half_even n) (K - 1) 0 0%Z rows)
    as (front & last_row & -> & Hlen & Hz).
  - intros j Hj. apply (unclamped_sign j HP Hn Hlevel).
    assert (INR j <= INR (K - 1)) by (apply le_INR; lia).
    rewrite minus_INR in H by lia. simpl in H. lra.
  - apply Rnot_lt_le. intros H.
    apply (unclamped_sign (0 + S (K - 1)) HP Hn Hlevel) in H.
    replace (0 + S (K - 1))%nat with K in H by lia. lra.
  - pose proof (round_half_even_bounds n).
    assert (Zceil n - 1 <= Zfloor n)%Z.
    { apply Zfloor_lub. rewrite minus_IZR. lra. }
    lia.
  - exact Hrun.
  - exists front, last_row. repeat split; auto.
    rewrite length_app, Hlen. simpl. lia.
Qed.

End NominalCount.

(** ** Runs with more extra principal, in exact arithmetic *)

Section Monotone.

Import Exact.
Local Open Scope R_scope.

Lemma shape0_of_rows {F : Type} {A : Arith F} (rows : list (Row F)) :
  shape0 (DataFrame_of_rows rows) = length rows.
Proof. now destruct rows. Qed.

Lemma fold_left_Rplus (l : list R) (a : R) :
  fold_left Rplus l a = a + fold_left Rplus l 0.
Proof.
  revert a. induction l as [|x l IH]; intros a; simpl; [ring |].
  rewrite IH, (IH (0 + x)). ring.
Qed.

Lemma series_sum_cons (x : R) (l : list R) :
  series_sum (x :: l) = x + series_sum l.
Proof.
  unfold series_sum. simpl. rewrite fold_left_Rplus.
  change (IZR 0) with 0. ring.
Qed.

Lemma series_sum_nil : series_sum (A:=exact) [] = 0.
Proof. reflexivity. Qed.

Lemma run_interest_nonneg (r pmt e : R) m :
  0 <= r ->
  forall rows b p,
    run r pmt e m b p rows ->
    0 <= series_sum (map row_interest rows).
Proof.
  intros Hr. induction rows as [|row rest IH]; intros b p Hrun.
  - cbn [map]. rewrite series_sum_nil. lra.
  - cbn [run] in Hrun. destruct Hrun as (C & Hrow & Hrest).
    apply loop_cond_exact in C as [Hb _].
    cbn [map]. rewrite series_sum_cons.
    assert (0 <= row_interest row)
      by (rewrite Hrow, loop_body_exact; simpl; nra).
    assert (0 <= series_sum (map row_interest rest)); [| lra].
    revert Hrest. destruct (leb _ _).
    + intros ->. cbn [map]. rewrite series_sum_nil. lra.
    + apply IH.
Qed.

(** Two runs with the same rate and payment: the one with more extra
    principal, started from no greater a balance, is no longer and collects
    no more interest. *)
Lemma run_monotone (r pmt e1 e2 : R) m :
  0 <= r -> 0 <= e1 <= e2 ->
  forall rows1 rows2 b1 b2 p,
    b2 <= b1 ->
    run r pmt e1 m b1 p rows1 ->
    run r pmt e2 m b2 p rows2 ->
    (length rows2 <= length rows1)%nat
    /\ series_sum (map row_interest rows2)
       <= series_sum (map row_interest rows1).
Proof.
  intros Hr He.
  induction rows1 as [|row1 rest1 IH]; intros rows2 b1 b2 p Hb Hrun1 Hrun2.
  - cbn [run] in Hrun1. apply loop_cond_exact_false in Hrun1.
    destruct rows2 as [|row2 rest2]; [split; [lia | lra] |].
    cbn [run] in Hrun2. destruct Hrun2 as (C & _).
    apply loop_cond_exact in C. destruct Hrun1; [lra | lia].
  - assert (0 <= series_sum (map row_interest (row1 :: rest1))) as Hnn
      by (eapply run_interest_nonneg; [exact Hr | exact Hrun1]).
    destruct rows2 as [|row2 rest2].
    { split; [simpl; lia | cbn [map]; now rewrite series_sum_nil]. }
    cbn [run] in Hrun1, Hrun2.
    destruct Hrun1 as (C1 & Hrow1 & Hrest1).
    destruct Hrun2 as (C2 & Hrow2 & Hrest2).
    apply loop_cond_exact in C1 as [Hb1 _].
    apply loop_cond_exact in C2 as [Hb2 _].
    assert (row_interest row2 <= row_interest row1) as Hint
      by (rewrite Hrow1, Hrow2, !loop_body_exact; simpl; nra).
    assert (row_balance row2 <= row_balance row1) as Hbal.
    { rewrite Hrow1, Hrow2, !balance_step by lra.
      apply Rmax_lub; [| apply Rmax_r].
      eapply Rle_trans; [| apply Rmax_l]. nra. }
    assert (0 <= row_balance row2) as Hnn2
      by (rewrite Hrow2; apply balance_nonneg).
    cbn [map length]. rewrite !series_sum_cons.
    revert Hrest1 Hrest2. exact_ops.
    destruct (R_leb (row_balance row1) 0) eqn:L1.
    + apply R_leb_le in L1. rewrite R_leb_true by lra.
      intros -> ->. cbn [map length]. rewrite series_sum_nil.
      split; [lia | lra].
    + destruct (R_leb (row_balance row2) 0) eqn:L2.
      * intros Hrest1 ->. cbn [map length]. rewrite series_sum_nil.
        assert (0 <= series_sum (map row_interest rest1))
          by (eapply run_interest_nonneg; [exact Hr | exact Hrest1]).
        split; [lia | lra].
      * intros Hrest1 Hrest2.
        destruct (IH rest2 _ _ _ Hbal Hrest1 Hrest2).
        cbn [map] in Hnn. split; [lia | lra].
Qed.

End Monotone.

(** ** Termination and the safety cap *)

Section Cap.

Context {F : Type} {A : Arith F}.

(** How a run ends: before the last row the [break] was not taken; after
    it, either the [break] was taken or the loop condition failed. *)
Lemma run_last r pmt e m : forall front (last_row : Row F) balance period,
  run r pmt e m balance period (front ++ [last_row]) ->
  Forall (fun row => leb (row_balance row) (lit 0) = false) front
  /\ (leb (row_balance last_row) (lit 0) = true
      \/ loop_cond m (row_balance last_row)
           (period + Z.of_nat (length (front ++ [last_row]))) = false).
Proof.
  induction front as [|row front IH]; intros last_row balance period Hrun.
  - cbn [app run] in Hrun. destruct Hrun as (_ & _ & Hrest).
    split; [constructor |].
    destruct (leb _ _); [now left | right].
    cbn [run] in Hrest. simpl. exact Hrest.
  - change ((row :: front) ++ [last_row])
      with (row :: (front ++ [last_row])) in *.
    cbn [run] in Hrun. destruct Hrun as (_ & _ & Hrest).
    destruct (leb (row_balance row) (lit 0)) eqn:L.
    + now destruct front.
    + destruct (IH _ _ _ Hrest) as [Hfront Hlast].
      split; [now constructor |].
      replace (period + Z.of_nat (length (row :: front ++ [last_row])))%Z
        with (period + 1 + Z.of_nat (length (front ++ [last_row])))%Z
        by (cbn [length]; lia).
      exact Hlast.
Qed.

(** Whatever the arithmetic and the inputs, the call ends: it raises, or
    it returns rows, never more than the cap allows. *)
Lemma schedule_rows_bounded (principal rate years : F) ppy e :
  exists out,
    schedule_rows principal rate years ppy e = Some out
    /\ forall rows,
        out = Ok rows ->
        exists r base m,
          schedule_setup principal rate years ppy = Ok (r, base, m)
          /\ (Z.of_nat (length rows) <= Z.max 0 (m + 600))%Z.
Proof.
  destruct (schedule_rows principal rate years ppy e) as [out|] eqn:E.
  - exists out. split; [reflexivity |]. intros rows ->.
    destruct (schedule_rows_inv _ _ _ _ _ E) as (r & base & m & Hsetup & Hb).
    exists r, base, m. split; [assumption |].
    destruct base as [pmt|].
    + apply run_length in Hb. lia.
    + subst rows. simpl. lia.
  - exfalso. unfold schedule_rows in E.
    destruct (schedule_setup _ _ _ _) as [[[r base] m]|]; [| discriminate].
    revert E. apply while_loop_fuel. lia.
Qed.

End Cap.

Section CapExact.

Import Exact.
Local Open Scope R_scope.

(** C4: whatever the inputs, [amortization_schedule] terminates (the model
    never runs out of fuel), under any arithmetic; a returned schedule has
    at most [round(years x periods_per_year) + 600] rows (none if that is
    negative); and in exact arithmetic the last row either has balance
    exactly 0 or is row number [round(years x periods_per_year) + 600],
    every earlier row leaving a positive balance. *)
Theorem schedule_terminates_within_cap :
  (forall (F : Type) (A : Arith F) (principal rate years : F) ppy e,
      exists out,
        amortization_schedule principal rate years ppy e = Some out
        /\ forall df,
            out = Ok df ->
            exists m,
              round_int (mul years (lit ppy)) = Ok m
              /\ (Z.of_nat (shape0 df) <= Z.max 0 (m + 600))%Z)
  /\ (forall (P rate years : R) ppy e front last_row,
         schedule_rows P rate years ppy e = Some (Ok (front ++ [last_row])) ->
         exists m,
           round_int (years * IZR ppy) = Ok m
           /\ Forall (fun row => 0 < row_balance row) front
           /\ (row_balance last_row = 0
               \/ Z.of_nat (length (front ++ [last_row])) = (m + 600)%Z)).
Proof.
  split.
  - intros F A principal rate years ppy e.
    destruct (schedule_rows_bounded principal rate years ppy e)
      as (out & Hout & Hbound).
    unfold amortization_schedule. rewrite Hout.
    destruct out as [rows|err].
    + eexists. split; [reflexivity |]. intros df [= <-].
      destruct (Hbound rows eq_refl) as (r & base & m & Hsetup & Hlen).
      apply schedule_setup_inv in Hsetup as (_ & Hround & _).
      exists m. split; [assumption |]. now rewrite shape0_of_rows.
    + eexists. split; [reflexivity |]. discriminate.
  - intros P rate years ppy e front last_row Hrows.
    destruct (schedule_rows_inv _ _ _ _ _ Hrows)
      as (r & base & m & Hsetup & Hbase).
    apply schedule_setup_inv in Hsetup as (_ & Hround & _).
    exists m. split; [exact Hround |].
    destruct base as [pmt|]; [| now destruct front].
    pose proof (run_length _ _ _ _ _ _ _ Hbase) as Hlen.
    destruct (run_last _ _ _ _ _ _ _ _ Hbase) as [Hfront Hlast].
    split.
    + eapply Forall_impl; [| exact Hfront].
      intros row Hrow. now apply R_leb_gt in Hrow.
    + assert (exists b p, last_row = loop_body r pmt e b p) as (b & p & ->).
      { assert (nth_error (front ++ [last_row]) (length front)
                = Some last_row) as Hn
          by (rewrite nth_error_app2, Nat.sub_diag by lia; reflexivity).
        destruct (run_nth _ _ _ _ _ _ _ _ Hbase Hn) as (E & _). eauto. }
      pose proof (balance_nonneg r pmt e b p) as Hnn.
      destruct Hlast as [L | L].
      * cbn [lit leb exact] in L. apply R_leb_le in L. left. lra.
      * apply loop_cond_exact_false in L. destruct L as [L | L].
        -- left. lra.
        -- right. rewrite length_app in *. cbn [length] in *. lia.
Qed.

End CapExact.

(** ** The zero-rate guard of [payment] *)

Section ZeroRateGuard.

Import Exact.
Local Open Scope R_scope.

(** At a positive rate the annuity payment is strictly more than the
    straight-line one. *)
Lemma closed_form_exceeds_straight_line (P r n : R) :
  0 < P -> 0 < r -> 0 < n ->
  P / n < r * P / (1 - Rpower (1 + r) (- n)).
Proof.
  intros HP Hr Hn.
  pose proof (@Rpower_neg_bounds (1 + r) n ltac:(lra) Hn) as Hw.
  set (w := Rpower (1 + r) (- n)) in *.
  assert (ln (1 + r) < r) as Hln.
  { rewrite <- (ln_exp r) at 2. apply ln_increasing; [lra |].
    apply exp_ineq1. lra. }
  assert (1 - n * r < w) as Hb.
  { unfold w, Rpower.
    pose proof (exp_ineq1_le (- n * ln (1 + r))). nra. }
  apply Rmult_lt_reg_r with (n * (1 - w)); [nra |].
  replace (P / n * (n * (1 - w))) with (P * (1 - w)) by (field; lra).
  replace (r * P / (1 - w) * (n * (1 - w))) with (P * (n * r))
    by (field; lra).
  nra.
Qed.

(** C5, what the code does: in exact arithmetic the guard
    [isclose(r, 0.0)] holds only for [r = 0]; the zero rate gives
    principal / n, and every positive rate, however small, goes through the
    annuity formula and gives strictly more than principal / n. In double
    precision the rate 1e-14 % a year, one period a year, makes
    [1.0 + r == 1.0] and the formula divides by zero. *)
Theorem zero_rate_guard_is_exact :
  (forall r : R, isclose r 0 = true <-> r = 0)
  /\ (forall (P years : R) ppy,
         years * IZR ppy <> 0 ->
         payment P 0 years ppy = Ok (PyFloat (P / (years * IZR ppy))))
  /\ (forall (P rate years : R) ppy,
         0 < P -> 0 < rate -> 0 < years -> (0 < ppy)%Z ->
         exists pmt,
           payment P rate years ppy = Ok (PyFloat pmt)
           /\ P / (years * IZR ppy) < pmt)
  /\ (forall libm_pow : float -> float -> float,
         payment (A := Binary64.binary64 libm_pow)
                 1000%float 0x1.6849b86a12b9bp-47%float 1%float 1
         = Raise ZeroDivisionError).
Proof.
  split; [exact isclose_zero |].
  split; [intros; now apply payment_zero_rate |].
  split.
  - intros P rate years ppy HP Hrate Hyears Hppy.
    destruct (@payment_closed_form P rate years ppy Hrate Hppy Hyears)
      as [Hpay _].
    eexists. split; [exact Hpay |].
    apply closed_form_exceeds_straight_line; try assumption.
    + now apply period_rate_sign.
    + pose proof (IZR_lt _ _ Hppy). simpl in *. nra.
  - intros libm_pow. vm_compute. reflexivity.
Qed.

End ZeroRateGuard.

(** ** The savings stream, for any arithmetic *)

Section Savings.

Context {F : Type} {A : Arith F}.

Local Open Scope py_scope.

(** Looking a label up after every column was transformed. *)
Lemma lookup_map (g : string -> list F -> list F) key cols :
  lookup key (map (fun c => (fst c, g (fst c) (snd c))) cols)
  = option_map (g key) (lookup key cols).
Proof.
  induction cols as [|[label values] cols IH]; [reflexivity |].
  cbn [map lookup fst snd].
  destruct (String.eqb key label) eqn:E; [| exact IH].
  apply String.eqb_eq in E. now subst.
Qed.

(** In a well-formed frame a column is as long as the frame. *)
Lemma lookup_length (df : DataFrame F) key values :
  well_formed df ->
  lookup key (columns df) = Some values ->
  length values = shape0 df.
Proof.
  intros [_ Hlen]. revert Hlen.
  induction (columns df) as [|[label vs] cols IH]; [discriminate |].
  intros Hall. inversion_clear Hall as [|? ? Hhd Htl]. cbn [lookup].
  destruct (String.eqb key label); [| now apply IH].
  now intros [= <-].
Qed.

(** The payment column after the truncation and the padding. *)
Lemma payment_over_horizon (df : DataFrame F) (months : Z) :
  getitem (pad_to_horizon (head df months) months) "payment"
  = match lookup "payment" (columns df) with
    | Some payments => Ok (horizon_payments payments (shape0 df) months)
    | None => Raise (KeyError "payment")
    end.
Proof.
  unfold getitem, pad_to_horizon, head, horizon_payments.
  cbn [shape0 columns].
  set (k := slice_stop months (shape0 df)).
  pose proof (lookup_map (fun _ => firstn k) "payment" (columns df)) as Hhead.
  cbv beta in Hhead.
  destruct (Z.of_nat k <? months)%Z.
  - unfold concat. cbn [shape0 columns].
    set (pad_len := Z.to_nat (months - Z.of_nat k)).
    set (cols := map (fun c => (fst c, firstn k (snd c))) (columns df)) in *.
    set (pad_cols := map (fun c => (fst c, repeat (lit 0) pad_len)) cols).
    rewrite (lookup_map
               (fun label values =>
                  values ++ match lookup label pad_cols with
                            | Some zeros => zeros
                            | None => []
                            end) "payment" cols).
    assert (lookup "payment" pad_cols
            = option_map (fun _ => repeat (lit 0) pad_len)
                         (lookup "payment" cols)) as ->
      by apply (lookup_map (fun _ _ => repeat (lit 0) pad_len)).
    rewrite Hhead.
    now destruct (lookup "payment" (columns df)).
  - cbn [columns]. rewrite Hhead.
    destruct (lookup "payment" (columns df)); cbn [option_map];
      [now rewrite app_nil_r | reflexivity].
Qed.

(** [build_savings_stream] in terms of the two payment columns. *)
Lemma build_savings_stream_eq (cur_sched new_sched : DataFrame F)
    (months : Z) (cur_pmi new_pmi : F) :
  build_savings_stream cur_sched new_sched months cur_pmi new_pmi
  = match lookup "payment" (columns cur_sched),
          lookup "payment" (columns new_sched) with
    | Some cur, Some new =>
        np_sub
          (map (fun x => x + cur_pmi)
               (horizon_payments cur (shape0 cur_sched) months))
          (map (fun x => x + new_pmi)
               (horizon_payments new (shape0 new_sched) months))
    | _, _ => Raise (KeyError "payment")
    end.
Proof.
  unfold build_savings_stream. rewrite !payment_over_horizon.
  destruct (lookup "payment" (columns cur_sched)); [| reflexivity].
  destruct (lookup "payment" (columns new_sched)); reflexivity.
Qed.

Lemma horizon_payments_length (payments : list F) (months : Z) :
  (0 <= months)%Z ->
  length (horizon_payments payments (length payments) months)
  = Z.to_nat months.
Proof.
  intros Hm. unfold horizon_payments, slice_stop.
  rewrite (proj2 (Z.leb_le 0 months) Hm).
  rewrite length_app, length_firstn.
  destruct (Z.ltb_spec (Z.of_nat (Nat.min (Z.to_nat months) (length payments)))
                       months).
  - rewrite repeat_length. lia.
  - cbn [length]. lia.
Qed.

Lemma horizon_payments_nth (payments : list F) (months : Z) i :
  (0 <= months)%Z -> (i < Z.to_nat months)%nat ->
  nth i (horizon_payments payments (length payments) months) (lit 0)
  = nth i payments (lit 0).
Proof.
  intros Hm Hi. unfold horizon_payments, slice_stop.
  rewrite (proj2 (Z.leb_le 0 months) Hm).
  set (k := Nat.min (Z.to_nat months) (length payments)).
  destruct (Nat.lt_ge_cases i k) as [Hlt | Hge].
  - rewrite app_nth1 by (rewrite length_firstn; lia).
    rewrite <- (firstn_skipn k payments) at 2.
    now rewrite app_nth1 by (rewrite length_firstn; lia).
  - assert (k = length payments) as Hk by lia.
    rewrite app_nth2 by (rewrite length_firstn; lia).
    rewrite (nth_overflow payments) by lia.
    destruct (_ <? _)%Z.
    + apply nth_repeat.
    + now destruct (i - _)%nat.
Qed.

End Savings.

(** ** The savings stream of two frames with a payment column *)

Section SavingsClaims.

Import Exact.

Lemma payments_frame_well_formed {F : Type} (payments interest : list F) :
  length interest = length payments ->
  well_formed (payments_frame payments interest).
Proof.
  intros Hlen. split; cbn.
  - repeat constructor; cbn; intuition discriminate.
  - repeat constructor; cbn; congruence.
Qed.

(** Under any arithmetic, for a horizon [months >= 0] and two well-formed
    frames with a payment column, [build_savings_stream] returns exactly
    [months] entries, entry [i] being (current payment_i + cur_pmi) - (new
    payment_i + new_pmi) with payment_i = 0 past a frame's end; for 36
    payments of 1000 against 24 payments of 800, PMI 50 and 25, over 30
    months, the entries are 225 for months 1-24 and 1025 for months 25-30,
    in exact arithmetic and in double precision alike. *)
Theorem savings_stream_entries :
  (forall (F : Type) (A : Arith F) (cur_sched new_sched : DataFrame F)
          (months : Z) (cur_pmi new_pmi : F) (cur_pay new_pay : list F),
      (0 <= months)%Z ->
      well_formed cur_sched -> well_formed new_sched ->
      lookup "payment" (columns cur_sched) = Some cur_pay ->
      lookup "payment" (columns new_sched) = Some new_pay ->
      exists stream,
        build_savings_stream cur_sched new_sched months cur_pmi new_pmi
        = Ok stream
        /\ length stream = Z.to_nat months
        /\ forall i,
            (i < Z.to_nat months)%nat ->
            nth i stream (lit 0)
            = sub (add (nth i cur_pay (lit 0)) cur_pmi)
                  (add (nth i new_pay (lit 0)) new_pmi))
  /\ build_savings_stream (A := exact)
       (payments_frame (repeat 1000%R 36) (repeat 100%R 36))
       (payments_frame (repeat 800%R 24) (repeat 80%R 24))
       30 50%R 25%R
     = Ok (repeat 225%R 24 ++ repeat 1025%R 6)
  /\ (forall libm_pow,
         build_savings_stream (A := Binary64.binary64 libm_pow)
           (payments_frame (repeat 1000%float 36) (repeat 100%float 36))
           (payments_frame (repeat 800%float 24) (repeat 80%float 24))
           30 50%float 25%float
         = Ok (repeat 225%float 24 ++ repeat 1025%float 6)).
Proof.
  assert (forall (F : Type) (A : Arith F) (cur_sched new_sched : DataFrame F)
                 (months : Z) (cur_pmi new_pmi : F) (cur_pay new_pay : list F),
             (0 <= months)%Z ->
             well_formed cur_sched -> well_formed new_sched ->
             lookup "payment" (columns cur_sched) = Some cur_pay ->
             lookup "payment" (columns new_sched) = Some new_pay ->
             exists stream,
               build_savings_stream cur_sched new_sched months cur_pmi new_pmi
               = Ok stream
               /\ length stream = Z.to_nat months
               /\ forall i,
                   (i < Z.to_nat months)%nat ->
                   nth i stream (lit 0)
                   = sub (add (nth i cur_pay (lit 0)) cur_pmi)
                         (add (nth i new_pay (lit 0)) new_pmi)) as General.
  { intros F A cur_sched new_sched months cur_pmi new_pmi cur_pay new_pay
           Hm Hcur Hnew Hc Hn.
    rewrite build_savings_stream_eq, Hc, Hn.
    rewrite <- (lookup_length _ Hcur Hc), <- (lookup_length _ Hnew Hn).
    set (c := horizon_payments cur_pay (length cur_pay) months).
    set (n := horizon_payments new_pay (length new_pay) months).
    assert (length c = Z.to_nat months) as Lc
      by now apply horizon_payments_length.
    assert (length n = Z.to_nat months) as Ln
      by now apply horizon_payments_length.
    unfold np_sub. rewrite !length_map, Lc, Ln, Nat.eqb_refl.
    eexists. split; [reflexivity |]. split.
    - now rewrite length_map, length_combine, !length_map, Lc, Ln, Nat.min_id.
    - intros i Hi.
      rewrite (nth_indep _ (lit 0)
                 (sub (fst (add (lit 0) cur_pmi, add (lit 0) new_pmi))
                      (snd (add (lit 0) cur_pmi, add (lit 0) new_pmi))))
        by now rewrite length_map, length_combine, !length_map, Lc, Ln,
                       Nat.min_id.
      rewrite (map_nth (fun p => sub (fst p) (snd p))).
      rewrite combine_nth by now rewrite !length_map, Lc, Ln.
      cbn [fst snd].
      rewrite (map_nth (fun x => add x cur_pmi)),
              (map_nth (fun x => add x new_pmi)).
      unfold c, n. now rewrite !horizon_payments_nth. }
  split; [exact General |]. split.
  - destruct (General R exact
                (payments_frame (repeat 1000%R 36) (repeat 100%R 36))
                (payments_frame (repeat 800%R 24) (repeat 80%R 24))
                30%Z 50%R 25%R (repeat 1000%R 36) (repeat 800%R 24))
      as (stream & -> & Hlen & Hnth);
      [lia | now apply payments_frame_well_formed
           | now apply payments_frame_well_formed
           | reflexivity | reflexivity |].
    f_equal. apply nth_ext with (d := lit 0) (d' := lit 0).
    + rewrite Hlen. reflexivity.
    + intros i Hi. rewrite Hlen in Hi. rewrite (Hnth i Hi).
      change (Z.to_nat 30) with 30%nat in Hi.
      do 30 (destruct i as [|i];
             [cbn [nth repeat app]; exact_ops; lra |]).
      lia.
  - intros libm_pow. vm_compute. reflexivity.
Qed.

Lemma savings_stream_entries_witness :
  exists stream,
    build_savings_stream (A := exact)
      (payments_frame [1000%R; 1000%R] [100%R; 100%R])
      (payments_frame [800%R] [80%R]) 3 50%R 25%R
    = Ok stream
    /\ length stream = Z.to_nat 3
    /\ forall i,
        (i < Z.to_nat 3)%nat ->
        nth i stream (lit 0)
        = sub (add (nth i [1000%R; 1000%R] (lit 0)) 50%R)
              (add (nth i [800%R] (lit 0)) 25%R).
Proof.
  apply (proj1 savings_stream_entries R exact
           (payments_frame [1000%R; 1000%R] [100%R; 100%R])
           (payments_frame [800%R] [80%R]) 3%Z 50%R 25%R).
  - lia.
  - now apply payments_frame_well_formed.
  - now apply payments_frame_well_formed.
  - reflexivity.
  - reflexivity.
Defined.

End SavingsClaims.

Section SavingsIndependence.

Import Exact.

(** C9: the stream depends on the schedules only through their payment
    columns: two calls with the same horizon and PMI amounts, on
    well-formed frames whose payment columns agree, give the same result,
    whatever the other columns hold. *)
Theorem savings_stream_reads_payments_only (F : Type) (A : Arith F)
    (cur1 new1 cur2 new2 : DataFrame F) (months : Z) (cur_pmi new_pmi : F) :
  well_formed cur1 -> well_formed new1 ->
  well_formed cur2 -> well_formed new2 ->
  lookup "payment" (columns cur1) = lookup "payment" (columns cur2) ->
  lookup "payment" (columns new1) = lookup "payment" (columns new2) ->
  build_savings_stream cur1 new1 months cur_pmi new_pmi
  = build_savings_stream cur2 new2 months cur_pmi new_pmi.
Proof.
  intros Hc1 Hn1 Hc2 Hn2 Hcur Hnew.
  rewrite !build_savings_stream_eq, <- Hcur, <- Hnew.
  destruct (lookup "payment" (columns cur1)) as [cur|] eqn:Ec;
    [| reflexivity].
  destruct (lookup "payment" (columns new1)) as [new|] eqn:En;
    [| reflexivity].
  symmetry in Hcur, Hnew.
  rewrite <- (lookup_length _ Hc1 Ec), <- (lookup_length _ Hc2 Hcur).
  rewrite <- (lookup_length _ Hn1 En), <- (lookup_length _ Hn2 Hnew).
  reflexivity.
Qed.

Lemma savings_stream_reads_payments_only_witness :
  build_savings_stream (A := exact)
    (payments_frame [1000%R; 1000%R] [100%R; 100%R])
    (payments_frame [800%R] [80%R]) 3 50%R 25%R
  = build_savings_stream (A := exact)
      (payments_frame [1000%R; 1000%R] [7%R; 9%R])
      (mkDataFrame 1 [("balance"%string, [0%R]); ("payment"%string, [800%R])])
      3 50%R 25%R.
Proof.
  apply (@savings_stream_reads_payments_only R exact).
  - now apply payments_frame_well_formed.
  - now apply payments_frame_well_formed.
  - now apply payments_frame_well_formed.
  - split; cbn.
    + repeat constructor; cbn; intuition discriminate.
    + repeat constructor.
  - reflexivity.
  - reflexivity.
Defined.

End SavingsIndependence.

Section Horizon.

Import Exact.

(** A negative horizon drops rows from the end of each schedule; nothing
    is padded. *)
Lemma savings_stream_negative_horizon (F : Type) (A : Arith F)
    (cur_sched new_sched : DataFrame F) (months : Z) (cur_pmi new_pmi : F)
    (cur_pay new_pay : list F) :
  well_formed cur_sched -> well_formed new_sched ->
  lookup "payment" (columns cur_sched) = Some cur_pay ->
  lookup "payment" (columns new_sched) = Some new_pay ->
  (months < 0)%Z ->
  shape0 cur_sched = shape0 new_sched ->
  let k := Z.to_nat (Z.of_nat (shape0 cur_sched) + months) in
  build_savings_stream cur_sched new_sched months cur_pmi new_pmi
  = Ok (map (fun p => sub (add (fst p) cur_pmi) (add (snd p) new_pmi))
            (combine (firstn k cur_pay) (firstn k new_pay))).
Proof.
  intros Hcur Hnew Hc Hn Hm Hshape k.
  rewrite build_savings_stream_eq, Hc, Hn.
  unfold horizon_payments, slice_stop.
  rewrite <- Hshape. fold k.
  rewrite (proj2 (Z.leb_gt 0 months) Hm).
  rewrite (proj2 (Z.ltb_ge (Z.of_nat k) months)) by lia.
  rewrite !app_nil_r.
  pose proof (lookup_length _ Hcur Hc) as Lc.
  pose proof (lookup_length _ Hnew Hn) as Ln.
  unfold np_sub.
  rewrite !length_map, !length_firstn, Lc, Ln, Hshape, Nat.eqb_refl.
  f_equal.
  generalize (firstn k cur_pay) (firstn k new_pay).
  induction l as [|x l IH]; intros [|y l']; cbn; try reflexivity.
  now rewrite IH.
Qed.

Lemma payment_frame_well_formed {F : Type} (payments : list F) :
  well_formed (payment_frame payments).
Proof.
  split; cbn; repeat constructor; cbn; intuition.
Qed.

(** C6 as stated fails: a negative horizon is not rejected. With three
    payments of 1000 against three of 800, PMI 50 and 25, and
    [months = -1], the call returns the savings of the first two months. *)
Lemma negative_horizon_returns_a_stream :
  build_savings_stream (A := exact)
    (payment_frame [1000%R; 1000%R; 1000%R])
    (payment_frame [800%R; 800%R; 800%R]) (-1) 50%R 25%R
  = Ok [225%R; 225%R].
Proof.
  rewrite (@savings_stream_negative_horizon R exact
             (payment_frame [1000%R; 1000%R; 1000%R])
             (payment_frame [800%R; 800%R; 800%R]) (-1) 50%R 25%R
             [1000%R; 1000%R; 1000%R] [800%R; 800%R; 800%R]);
    try apply payment_frame_well_formed; try reflexivity; try lia.
  change (Z.to_nat (Z.of_nat (shape0 (payment_frame [1000%R; 1000%R; 1000%R]))
                    + -1)) with 2%nat.
  cbn [firstn combine map fst snd]. exact_ops.
  do 3 f_equal; lra.
Qed.

(** C6, as the code has it: the horizon is not validated. For
    [months = 0] the stream is empty; for [months < 0] no precondition
    failure is raised: the last [-months] rows of each schedule are dropped,
    and two schedules of the same length give the savings of the months
    that remain. A schedule is a frame with a payment column. *)
Theorem horizon_is_not_validated (F : Type) (A : Arith F)
    (cur_sched new_sched : DataFrame F) (months : Z) (cur_pmi new_pmi : F)
    (cur_pay new_pay : list F) :
  well_formed cur_sched -> well_formed new_sched ->
  lookup "payment" (columns cur_sched) = Some cur_pay ->
  lookup "payment" (columns new_sched) = Some new_pay ->
  (months = 0%Z ->
   build_savings_stream cur_sched new_sched months cur_pmi new_pmi = Ok [])
  /\ ((months < 0)%Z ->
      shape0 cur_sched = shape0 new_sched ->
      let k := Z.to_nat (Z.of_nat (shape0 cur_sched) + months) in
      build_savings_stream cur_sched new_sched months cur_pmi new_pmi
      = Ok (map (fun p => sub (add (fst p) cur_pmi) (add (snd p) new_pmi))
                (combine (firstn k cur_pay) (firstn k new_pay)))).
Proof.
  intros Hcur Hnew Hc Hn. split.
  - intros ->. rewrite build_savings_stream_eq, Hc, Hn. reflexivity.
  - intros Hm Hshape. now apply savings_stream_negative_horizon.
Qed.

Lemma horizon_is_not_validated_witness :
  ((-1)%Z = 0%Z ->
   build_savings_stream (A := exact)
     (payment_frame [1000%R; 1000%R; 1000%R])
     (payment_frame [800%R; 800%R; 800%R]) (-1) 50%R 25%R = Ok [])
  /\ ((-1 < 0)%Z ->
      shape0 (payment_frame [1000%R; 1000%R; 1000%R])
      = shape0 (payment_frame [800%R; 800%R; 800%R]) ->
      let k :=
        Z.to_nat
          (Z.of_nat (shape0 (payment_frame [1000%R; 1000%R; 1000%R])) + -1) in
      build_savings_stream (A := exact)
        (payment_frame [1000%R; 1000%R; 1000%R])
        (payment_frame [800%R; 800%R; 800%R]) (-1) 50%R 25%R
      = Ok (map (fun p => sub (add (fst p) 50%R) (add (snd p) 25%R))
                (combine (firstn k [1000%R; 1000%R; 1000%R])
                         (firstn k [800%R; 800%R; 800%R])))).
Proof.
  apply (@horizon_is_not_validated R exact
           (payment_frame [1000%R; 1000%R; 1000%R])
           (payment_frame [800%R; 800%R; 800%R]) (-1)%Z 50%R 25%R
           [1000%R; 1000%R; 1000%R] [800%R; 800%R; 800%R]).
  - apply payment_frame_well_formed.
  - apply payment_frame_well_formed.
  - reflexivity.
  - reflexivity.
Defined.

End Horizon.

(** ** The empty schedule *)

Section EmptySchedule.

Import Exact.
Local Open Scope R_scope.

(** When the principal is not positive the loop body is never entered and
    the frame is built from no rows: it has no columns. *)
Lemma no_principal_no_columns (F : Type) (A : Arith F)
    (principal rate years : F) ppy e df :
  ltb (lit 0) principal = false ->
  amortization_schedule principal rate years ppy e = Some (Ok df) ->
  df = mkDataFrame 0 [].
Proof.
  intros Hp. unfold amortization_schedule.
  destruct (schedule_rows _ _ _ _ _) as [[rows|err]|] eqn:E;
    try discriminate.
  intros [= <-].
  destruct (schedule_rows_inv _ _ _ _ _ E) as (r & base & m & _ & Hbase).
  assert (rows = []) as ->; [| reflexivity].
  destruct base as [pmt|]; [| assumption].
  destruct rows as [|row rest]; [reflexivity |].
  cbn [run] in Hbase. destruct Hbase as (C & _).
  unfold loop_cond in C. now rewrite Hp in C.
Qed.

(** C7, what the code does: for a principal that is not positive
    [amortization_schedule] returns a frame without columns, and
    [total_interest_from_schedule] raises KeyError on it, under any
    arithmetic; a principal of 0 at 5% over 30 years is such a call. Only
    an empty frame that has an interest column sums to 0. *)
Theorem total_interest_of_empty_schedule :
  (forall (F : Type) (A : Arith F) (principal rate years : F) ppy e df,
      ltb (lit 0) principal = false ->
      amortization_schedule principal rate years ppy e = Some (Ok df) ->
      df = mkDataFrame 0 []
      /\ total_interest_from_schedule df = Raise (KeyError "interest"))
  /\ amortization_schedule (A := exact) 0 5 30 12 0
     = Some (Ok (mkDataFrame 0 []))
  /\ (forall libm_pow,
         amortization_schedule (A := Binary64.binary64 libm_pow)
           0%float 0%float 30%float 12 0%float
         = Some (Ok (mkDataFrame 0 [])))
  /\ (forall (F : Type) (A : Arith F),
         total_interest_from_schedule
           (mkDataFrame 0 [("interest"%string, @nil F)])
         = Ok (lit 0)).
Proof.
  split; [| split; [| split]].
  - intros F A principal rate years ppy e df Hp Hdf.
    rewrite (@no_principal_no_columns F A principal rate years ppy e df
               Hp Hdf).
    now split.
  - destruct (@schedule_rows_exact 0 5 30 12 0 ltac:(lra) ltac:(lia)
                ltac:(lra)) as (pmt & rows & _ & _ & Hrows & _).
    assert (amortization_schedule 0 5 30 12 0
            = Some (Ok (DataFrame_of_rows rows))) as Hdf
      by (unfold amortization_schedule; now rewrite Hrows).
    rewrite Hdf. do 2 f_equal.
    apply (@no_principal_no_columns R exact 0 5 30 12 0); [| exact Hdf].
    exact_ops. apply R_ltb_false. lra.
  - intros libm_pow. vm_compute. reflexivity.
  - reflexivity.
Qed.

End EmptySchedule.

(** ** Rounding in double precision *)

Section Residue.

Local Open Scope float_scope.

(** C1, what the program does: 250000 at 0% over 15 years is 180 periods.
    In double precision the 180 payments of 250000 / 180 leave the balance
    positive, though by less than 2^-29, and the loop, which stops at a
    balance of exactly zero only, goes on: a 181st row pays the residue.
    The schedule has 181 rows, one more than the nominal count, whatever
    the C library's [pow]. *)
Theorem binary64_residual_row (libm_pow : float -> float -> float) :
  exists rows row180 row181,
    schedule_rows (A := Binary64.binary64 libm_pow) 250000 0 15 12 0
    = Some (Ok rows)
    /\ round_int (Arith := Binary64.binary64 libm_pow) (15 * 12) = Ok 180%Z
    /\ length rows = 181%nat
    /\ nth_error rows 179 = Some row180
    /\ (0 <? row_balance row180) = true
    /\ (row_balance row180 <? 0x1p-29) = true
    /\ nth_error rows 180 = Some row181
    /\ row_period row181 = 181%Z
    /\ (row_payment row181 <? 0x1p-29) = true
    /\ row_balance row181 = 0.
Proof.
  destruct (schedule_rows (A := Binary64.binary64 libm_pow) 250000 0 15 12 0)
    as [[rows|err]|] eqn:E; vm_compute in E; try discriminate.
  injection E as <-.
  eexists _, _, _. split; [reflexivity |].
  split; [reflexivity |].
  split; [reflexivity |].
  split; [reflexivity |].
  split; [reflexivity |].
  split; [reflexivity |].
  split; [reflexivity |].
  repeat split.
Qed.

(** The loop a call runs, once what precedes it is known. *)
Lemma schedule_rows_of_setup {F : Type} {A : Arith F}
    (principal rate years : F) (ppy : Z) (e r : F) (base : pyval F) (m : Z) :
  schedule_setup principal rate years ppy = Ok (r, base, m) ->
  schedule_rows principal rate years ppy e
  = while_loop (Z.to_nat (m + 600)) r base e m principal 0%Z [].
Proof. intros H. unfold schedule_rows. now rewrite H. Qed.

(** What precedes the loop for 300000 at 6% over 30 years, when [pow]
    returns the double nearest to 1.005 ^ -360: the payment is
    1798.6515754582708. *)
Lemma setup_6pct_30y (libm_pow : float -> float -> float) :
  libm_pow 0x1.0147ae147ae14p+0 (-360) = 0x1.540dca5583ea9p-3 ->
  schedule_setup (A := Binary64.binary64 libm_pow) 300000 6 30 12
  = Ok (0x1.47ae147ae147bp-8, PyFloat 0x1.c1a9b3698d099p+10, 360%Z).
Proof.
  intros H. vm_compute. rewrite H. vm_compute. reflexivity.
Qed.

(** C3, what the program does: 300000 at 6% over 30 years, with [pow]
    returning the correctly rounded value of 1.005 ^ -360. With an extra
    principal of 2279 a period the schedule has 92 rows; with 2279.5 it has
    93: row 92 leaves a residue below 2^-29, which a further row pays. More
    extra principal has made the schedule a row longer. *)
Theorem extra_principal_adds_a_row (libm_pow : float -> float -> float) :
  libm_pow 0x1.0147ae147ae14p+0 (-360) = 0x1.540dca5583ea9p-3 ->
  exists rows1 rows2 row92 row93,
    schedule_rows (A := Binary64.binary64 libm_pow) 300000 6 30 12 2279
    = Some (Ok rows1)
    /\ schedule_rows (A := Binary64.binary64 libm_pow) 300000 6 30 12 2279.5
       = Some (Ok rows2)
    /\ length rows1 = 92%nat
    /\ length rows2 = 93%nat
    /\ nth_error rows2 91 = Some row92
    /\ (0 <? row_balance row92) = true
    /\ (row_balance row92 <? 0x1p-29) = true
    /\ nth_error rows2 92 = Some row93
    /\ (row_payment row93 <? 0x1p-29) = true
    /\ row_balance row93 = 0.
Proof.
  intros H. pose proof (@setup_6pct_30y libm_pow H) as Hsetup.
  destruct (schedule_rows (A := Binary64.binary64 libm_pow) 300000 6 30 12
              2279) as [[rows1|err]|] eqn:E1;
    rewrite (@schedule_rows_of_setup float (Binary64.binary64 libm_pow)
               _ _ _ _ _ _ _ _ Hsetup) in E1;
    vm_compute in E1; try discriminate.
  destruct (schedule_rows (A := Binary64.binary64 libm_pow) 300000 6 30 12
              2279.5) as [[rows2|err]|] eqn:E2;
    rewrite (@schedule_rows_of_setup float (Binary64.binary64 libm_pow)
               _ _ _ _ _ _ _ _ Hsetup) in E2;
    vm_compute in E2; try discriminate.
  injection E1 as <-. injection E2 as <-.
  eexists _, _, _, _. split; [reflexivity |].
  split; [reflexivity |].
  split; [reflexivity |].
  split; [reflexivity |].
  split; [reflexivity |].
  split; [reflexivity |].
  split; [reflexivity |].
  repeat split.
Qed.

Lemma extra_principal_adds_a_row_witness :
  exists rows1 rows2 row92 row93,
    schedule_rows
      (A := Binary64.binary64 (fun _ _ => 0x1.540dca5583ea9p-3))
      300000 6 30 12 2279
    = Some (Ok rows1)
    /\ schedule_rows
         (A := Binary64.binary64 (fun _ _ => 0x1.540dca5583ea9p-3))
         300000 6 30 12 2279.5
       = Some (Ok rows2)
    /\ length rows1 = 92%nat
    /\ length rows2 = 93%nat
    /\ nth_error rows2 91 = Some row92
    /\ (0 <? row_balance row92) = true
    /\ (row_balance row92 <? 0x1p-29) = true
    /\ nth_error rows2 92 = Some row93
    /\ (row_payment row93 <? 0x1p-29) = true
    /\ row_balance row93 = 0.
Proof.
  apply (@extra_principal_adds_a_row (fun _ _ => 0x1.540dca5583ea9p-3)).
  reflexivity.
Defined.

End Residue.

Section CapWitness.

Import Exact.
Local Open Scope R_scope.

Lemma schedule_terminates_within_cap_witness :
  exists m,
    round_int (1 / 32 * IZR 12) = Ok m
    /\ Forall (fun row : Row R => 0 < row_balance row) []
    /\ (row_balance short_term_row = 0
        \/ Z.of_nat (length ([] ++ [short_term_row])) = (m + 600)%Z).
Proof.
  apply (proj2 schedule_terminates_within_cap 1200 0 (1 / 32) 12%Z 0
               [] short_term_row).
  exact short_term_rows.
Defined.

End CapWitness.

(** * Further properties *)

(** ** The balance projector *)

Section BalanceProjector.

Import Exact.
Local Open Scope R_scope.

(** Under the preconditions, [payment] returns the level payment. *)
Lemma payment_exact (P rate years : R) ppy :
  0 <= rate -> (0 < ppy)%Z -> 0 < years ->
  exists pmt,
    payment P rate years ppy = Ok (PyFloat pmt)
    /\ level_payment P (period_rate rate ppy) (years * IZR ppy) pmt.
Proof.
  intros Hrate Hppy Hyears.
  destruct (@schedule_rows_exact P rate years ppy 0 Hrate Hppy Hyears)
    as (pmt & rows & Hpay & Hlevel & _).
  eauto.
Qed.

End BalanceProjector.

Section BalanceProjectorLaws.

Import Exact.
Local Open Scope R_scope.

(** With no payment made the whole principal is owed, at any rate and
    term for which [payment] returns a float. *)
Theorem remaining_balance_before_first_payment (P rate years pmt : R) ppy :
  IZR ppy <> 0 ->
  payment P rate years ppy = Ok (PyFloat pmt) ->
  remaining_balance P rate years 0 ppy = Ok (PyFloat P).
Proof.
  intros Hppy Hpay.
  unfold remaining_balance. exact_ops.
  do 2 (rewrite truediv_exact by lra; exact_ops).
  rewrite Hpay. exact_ops.
  destruct (isclose (rate / 100 / IZR ppy) 0) eqn:C.
  - cbn [pyval_map]. do 2 f_equal. ring.
  - assert (rate / 100 / IZR ppy <> 0) as Hne
      by (intros E; rewrite E, (proj2 (isclose_zero 0) eq_refl) in C;
          discriminate).
    unfold real_pow. rewrite R_eqb_true by reflexivity. exact_ops.
    rewrite (truediv_exact (1 - 1) Hne). exact_ops. cbn [pyval_map].
    do 2 f_equal. unfold Rdiv. ring.
Qed.

Lemma remaining_balance_before_first_payment_witness :
  remaining_balance 1200 0 1 0 12 = Ok (PyFloat 1200).
Proof.
  apply (@remaining_balance_before_first_payment 1200 0 1 (1200 / (1 * 12))).
  - lra.
  - apply payment_zero_rate. lra.
Defined.

Lemma Rpower_gt_1 (q x : R) : 1 < q -> (1 < Rpower q x <-> 0 < x).
Proof.
  intros Hq. rewrite <- (Rpower_O q) at 1 by lra. split.
  - intros H. destruct (Rlt_dec 0 x) as [|Hle]; [assumption |].
    exfalso. apply Rnot_lt_le in Hle.
    pose proof (Rle_Rpower q x 0 ltac:(lra) Hle). lra.
  - now apply Rpower_lt.
Qed.

(** The unclamped balance is negative exactly after the term is over. *)
Lemma unclamped_sign_neg (P r n pmt : R) k :
  0 < P -> 0 < n -> level_payment P r n pmt ->
  (unclamped r pmt P k < 0 <-> n < INR k).
Proof.
  intros HP Hn [[-> ->] | (Hr & Hw & ->)].
  - rewrite unclamped_zero_rate by lra.
    assert (0 < / n) by now apply Rinv_0_lt_compat.
    unfold Rdiv. split; intros H0.
    + destruct (Rlt_dec n (INR k)) as [|Hge]; [assumption | exfalso].
      apply Rnot_lt_le in Hge.
      assert (0 <= P * (n - INR k)) by nra. nra.
    + assert (P * (n - INR k) < 0) by nra. nra.
  - set (w := Rpower (1 + r) (- n)) in *.
    pose proof (@unclamped_closed_form P r n k ltac:(fold w; lra)) as Hu.
    cbv zeta in Hu. fold w in Hu.
    set (u := unclamped r (r * P / (1 - w)) P k) in *.
    assert (w * (1 + r) ^ k = Rpower (1 + r) (INR k - n)) as Hpow.
    { unfold w. rewrite <- Rpower_pow by lra.
      rewrite <- Rpower_plus. f_equal. ring. }
    rewrite Hpow in Hu.
    pose proof (@Rpower_gt_1 (1 + r) (INR k - n) ltac:(lra)) as Hgt.
    split; intros H.
    + assert (1 < Rpower (1 + r) (INR k - n)) by nra.
      apply Hgt in H0. lra.
    + assert (1 < Rpower (1 + r) (INR k - n)) by (apply Hgt; lra).
      nra.
Qed.

End BalanceProjectorLaws.

(** ** The schedule without extra principal, row by row *)

Section NoExtraSchedule.

Import Exact.
Local Open Scope R_scope.

(** As long as the unclamped balance is positive, every row is the body
    run on it. *)
Lemma run_follows_unclamped (P r pmt : R) m :
  forall d k p rows,
    (forall j, (k <= j <= k + d)%nat -> 0 < unclamped r pmt P j) ->
    unclamped r pmt P (k + S d) <= 0 ->
    (p + Z.of_nat (S d) <= m + 600)%Z ->
    run r pmt 0 m (unclamped r pmt P k) p rows ->
    forall i row,
      nth_error rows i = Some row ->
      (i <= d)%nat
      /\ row = loop_body r pmt 0 (unclamped r pmt P (k + i))
                         (p + Z.of_nat i).
Proof.
  induction d as [|d IH]; intros k p rows Hpos Hend Hcap Hrun i row Hi.
  - destruct (@run_payoff P r pmt m 0 k p rows Hpos Hend Hcap Hrun)
      as (front & last_row & -> & Hlen & _).
    destruct front; [| discriminate]. cbn [app] in *.
    destruct i as [|i]; [| destruct i; discriminate].
    injection Hi as <-. cbn [run] in Hrun.
    destruct Hrun as (_ & Hrow & _).
    rewrite Nat.add_0_r, Z.add_0_r. now split.
  - assert (0 < unclamped r pmt P k) as Hk by (apply Hpos; lia).
    assert (0 < unclamped r pmt P (S k)) as Hk' by (apply Hpos; lia).
    destruct rows as [|row0 rest]; [destruct i; discriminate |].
    cbn [run] in Hrun. destruct Hrun as (_ & Hrow & Hrest).
    assert (row_balance row0 = unclamped r pmt P (S k)) as Hb.
    { rewrite Hrow, balance_step by lra. cbn [unclamped] in *.
      rewrite Rmax_left; lra. }
    revert Hrest. exact_ops. rewrite Hb, R_leb_false by lra. intros Hrest.
    destruct i as [|i].
    + injection Hi as <-. rewrite Nat.add_0_r, Z.add_0_r.
      split; [lia | assumption].
    + cbn [nth_error] in Hi.
      destruct (IH (S k) (p + 1)%Z rest) with (i := i) (row := row)
        as [Hle Hrow'].
      * intros j Hj. apply Hpos. lia.
      * replace (S k + S d)%nat with (k + S (S d))%nat by lia. exact Hend.
      * lia.
      * exact Hrest.
      * exact Hi.
      * split; [lia |].
        replace (k + S i)%nat with (S k + i)%nat by lia.
        replace (p + Z.of_nat (S i))%Z with (p + 1 + Z.of_nat i)%Z by lia.
        exact Hrow'.
Qed.

(** The schedule of a loan without extra principal: its rows are the body
    run on the unclamped balances, which stay positive until the last
    row. *)
Lemma no_extra_schedule (P rate years : R) (ppy : Z) :
  0 < P -> 0 <= rate -> 0 < years -> (0 < ppy)%Z ->
  let r := period_rate rate ppy in
  let n := years * IZR ppy in
  exists pmt rows,
    payment P rate years ppy = Ok (PyFloat pmt)
    /\ level_payment P r n pmt
    /\ schedule_rows P rate years ppy 0 = Some (Ok rows)
    /\ Z.of_nat (length rows) = Zceil n
    /\ forall i row,
        nth_error rows i = Some row ->
        row = loop_body r pmt 0 (unclamped r pmt P i) (Z.of_nat i)
        /\ 0 < unclamped r pmt P i
        /\ INR i < n.
Proof.
  intros HP Hrate Hyears Hppy r n.
  destruct (@schedule_rows_exact P rate years ppy 0 Hrate Hppy Hyears)
    as (pmt & rows & Hpay & Hlevel & Hrows & Hrun).
  fold r n in Hlevel, Hrun.
  pose proof (IZR_lt _ _ Hppy) as Hppy'.
  assert (0 < n) as Hn by (unfold n; simpl in Hppy'; nra).
  pose proof (Zceil_bound n) as [Hlo Hhi].
  assert (1 <= Zceil n)%Z as Hceil.
  { assert (0 < Zceil n)%Z; [| lia]. apply lt_IZR. simpl. lra. }
  set (K := Z.to_nat (Zceil n)).
  assert (INR K = IZR (Zceil n)) as HK
    by (unfold K; rewrite INR_IZR_INZ, Z2Nat.id by lia; reflexivity).
  assert (forall j, (0 <= j <= 0 + (K - 1))%nat -> 0 < unclamped r pmt P j)
    as Hpos.
  { intros j Hj. apply (unclamped_sign j HP Hn Hlevel).
    assert (INR j <= INR (K - 1)) by (apply le_INR; lia).
    rewrite minus_INR in H by lia. simpl in H. lra. }
  assert (unclamped r pmt P (0 + S (K - 1)) <= 0) as Hend.
  { apply Rnot_lt_le. intros H.
    apply (unclamped_sign (0 + S (K - 1)) HP Hn Hlevel) in H.
    replace (0 + S (K - 1))%nat with K in H by lia. lra. }
  assert (0 + Z.of_nat (S (K - 1)) <= round_half_even n + 600)%Z as Hcap.
  { pose proof (round_half_even_bounds n).
    assert (Zceil n - 1 <= Zfloor n)%Z.
    { apply Zfloor_lub. rewrite minus_IZR. lra. }
    lia. }
  exists pmt, rows. repeat split; auto.
  - destruct (@run_payoff P r pmt (round_half_even n) (K - 1) 0 0%Z rows
                Hpos Hend Hcap Hrun)
      as (front & last_row & -> & Hlen & _).
    rewrite length_app, Hlen. simpl. lia.
  - destruct (@run_follows_unclamped P r pmt (round_half_even n) (K - 1)
                0 0%Z rows Hpos Hend Hcap Hrun i row H)
      as [_ Hrow].
    exact Hrow.
  - destruct (@run_follows_unclamped P r pmt (round_half_even n) (K - 1)
                0 0%Z rows Hpos Hend Hcap Hrun i row H)
      as [Hle _].
    apply Hpos. lia.
  - destruct (@run_follows_unclamped P r pmt (round_half_even n) (K - 1)
                0 0%Z rows Hpos Hend Hcap Hrun i row H)
      as [Hle _].
    apply (unclamped_sign i HP Hn Hlevel). apply Hpos. lia.
Qed.

End NoExtraSchedule.

Section NoExtraLaws.

Import Exact.
Local Open Scope R_scope.

(** At the end of a whole term nothing is owed. *)
Lemma unclamped_at_term (P r n pmt : R) k :
  0 < P -> 0 < n -> level_payment P r n pmt ->
  INR k = n -> unclamped r pmt P k = 0.
Proof.
  intros HP Hn Hlevel Hk.
  pose proof (unclamped_sign k HP Hn Hlevel) as Hpos.
  pose proof (unclamped_sign_neg k HP Hn Hlevel) as Hneg.
  destruct (Rtotal_order (unclamped r pmt P k) 0) as [H | [H | H]];
    [apply Hneg in H; lra | assumption | apply Hpos in H; lra].
Qed.

(** The payment of a row of the schedule without extra principal: the
    level payment, unless the balance with its interest is less. *)
Lemma no_extra_row_payment (r pmt b : R) p :
  0 < b ->
  row_payment (loop_body r pmt 0 b p) = Rmin pmt (b * (1 + r)).
Proof.
  intros Hb. rewrite loop_body_exact; cbn.
  unfold Rmin, Rmax; repeat destruct (Rle_dec _ _); lra.
Qed.

End NoExtraLaws.

(** ** What every schedule keeps *)

Section ScheduleInvariants.

Import Exact.
Local Open Scope R_scope.

Lemma final_balance_cons (b : R) (row : Row R) (rest : list (Row R)) :
  final_balance b (row :: rest) = final_balance (row_balance row) rest.
Proof.
  unfold final_balance. cbn [length prev_balance].
  destruct rest as [|row' rest']; [reflexivity |].
  cbn [length prev_balance nth_error].
  destruct (nth_error (row' :: rest') (length rest')) eqn:E; [reflexivity |].
  apply nth_error_None in E. simpl in E. lia.
Qed.

(** Along a run, what is paid beyond the interest is what the balance
    went down by. *)
Lemma run_conservation (r pmt e : R) m :
  forall rows b p,
    run r pmt e m b p rows ->
    series_sum (map row_payment rows)
    = series_sum (map row_interest rows) + (b - final_balance b rows).
Proof.
  induction rows as [|row rest IH]; intros b p Hrun.
  - cbn [map]. rewrite series_sum_nil. unfold final_balance. simpl. ring.
  - cbn [run] in Hrun. destruct Hrun as (_ & Hrow & Hrest).
    cbn [map]. rewrite !series_sum_cons, final_balance_cons.
    assert (row_payment row = row_interest row + (b - row_balance row)) as Hp.
    { rewrite Hrow, loop_body_exact; cbn.
      unfold Rmin, Rmax; repeat destruct (Rle_dec _ _); lra. }
    revert Hrest. exact_ops. destruct (R_leb _ _).
    + intros ->. cbn [map]. rewrite series_sum_nil.
      unfold final_balance. simpl. lra.
    + intros Hrest. rewrite (IH _ _ Hrest). lra.
Qed.

(** In exact arithmetic, whatever the inputs, the payments of a returned
    schedule add up to its interest plus the principal it retired: sum of
    payment = sum of interest + (principal - final balance). *)
Theorem payments_are_interest_plus_principal (P rate years : R) (ppy : Z)
    (e : R) (rows : list (Row R)) :
  schedule_rows P rate years ppy e = Some (Ok rows) ->
  series_sum (map row_payment rows)
  = series_sum (map row_interest rows) + (P - final_balance P rows).
Proof.
  intros Hrows.
  apply schedule_rows_inv in Hrows as (r & base & m & _ & Hbase).
  destruct base as [pmt|].
  - now apply run_conservation in Hbase.
  - subst rows. cbn [map]. rewrite series_sum_nil.
    unfold final_balance. simpl. ring.
Qed.

Lemma payments_are_interest_plus_principal_witness :
  series_sum (map row_payment [short_term_row])
  = series_sum (map row_interest [short_term_row])
    + (1200 - final_balance 1200 [short_term_row]).
Proof.
  apply (@payments_are_interest_plus_principal 1200 0 (1 / 32) 12 0).
  exact short_term_rows.
Defined.

(** In exact arithmetic, for a non-negative extra principal, every row of
    a returned schedule applies an extra between 0 and the amount asked
    for, retires no more principal than was owed, and leaves a balance that
    is not negative. *)
Theorem rows_never_overpay (P rate years : R) (ppy : Z) (e : R)
    (rows : list (Row R)) (i : nat) (row : Row R) :
  0 <= e ->
  schedule_rows P rate years ppy e = Some (Ok rows) ->
  nth_error rows i = Some row ->
  0 <= row_extra_principal row <= e
  /\ row_payment row - row_interest row <= prev_balance P rows i
  /\ 0 <= row_balance row.
Proof.
  intros He Hrows Hi.
  apply schedule_rows_inv in Hrows as (r & base & m & _ & Hbase).
  destruct base as [pmt|]; [| subst rows; destruct i; discriminate].
  destruct (run_nth _ _ _ _ _ _ _ _ Hbase Hi) as (-> & _).
  rewrite loop_body_exact; cbn.
  unfold Rmin, Rmax; repeat destruct (Rle_dec _ _); lra.
Qed.

Lemma rows_never_overpay_witness :
  0 <= row_extra_principal short_term_row <= 0
  /\ row_payment short_term_row - row_interest short_term_row
     <= prev_balance 1200 [short_term_row] 0
  /\ 0 <= row_balance short_term_row.
Proof.
  apply (@rows_never_overpay 1200 0 (1 / 32) 12 0 [short_term_row] 0
           short_term_row).
  - lra.
  - exact short_term_rows.
  - reflexivity.
Defined.

End ScheduleInvariants.

Section PeriodNumbers.

Context {F : Type} {A : Arith F}.

(** Under any arithmetic, the rows of a returned schedule are numbered
    1, 2, 3, ... without a gap: row [i] (from 0) has period [i + 1]. *)
Theorem periods_are_contiguous (principal rate years : F) (ppy : Z) (e : F)
    (rows : list (Row F)) (i : nat) (row : Row F) :
  schedule_rows principal rate years ppy e = Some (Ok rows) ->
  nth_error rows i = Some row ->
  row_period row = (Z.of_nat i + 1)%Z.
Proof.
  intros Hrows Hi.
  apply schedule_rows_inv in Hrows as (r & base & m & _ & Hbase).
  destruct base as [pmt|]; [| subst rows; destruct i; discriminate].
  rewrite (run_periods _ _ _ _ _ _ _ _ Hbase Hi). lia.
Qed.

End PeriodNumbers.

Section PeriodNumbersWitness.

Import Exact.

Lemma periods_are_contiguous_witness :
  row_period short_term_row = (Z.of_nat 0 + 1)%Z.
Proof.
  apply (@periods_are_contiguous R exact 1200%R 0%R (1 / 32)%R 12 0%R
           [short_term_row] 0 short_term_row).
  - exact short_term_rows.
  - reflexivity.
Defined.

End PeriodNumbersWitness.

(** ** A whole term, in exact arithmetic *)

Section WholeTermInterest.

Import Exact.
Local Open Scope R_scope.

(** A whole term without extra principal: as many rows as periods, each
    paying the level payment, and nothing owed at the end. *)
Lemma whole_term_schedule (P rate years : R) (ppy : Z) :
  0 < P -> 0 <= rate -> 0 < years -> (0 < ppy)%Z ->
  years * IZR ppy = IZR (Zfloor (years * IZR ppy)) ->
  exists pmt rows,
    payment P rate years ppy = Ok (PyFloat pmt)
    /\ schedule_rows P rate years ppy 0 = Some (Ok rows)
    /\ INR (length rows) = years * IZR ppy
    /\ Forall (fun row => row_payment row = pmt) rows
    /\ final_balance P rows = 0.
Proof.
  intros HP Hrate Hyears Hppy Hwhole.
  destruct (@no_extra_schedule P rate years ppy HP Hrate Hyears Hppy)
    as (pmt & rows & Hpay & Hlevel & Hrows & Hlen & Hrow).
  set (r := period_rate rate ppy) in *.
  set (n := years * IZR ppy) in *.
  pose proof (IZR_lt _ _ Hppy) as Hppy'.
  assert (0 < n) as Hn by (unfold n; simpl in Hppy'; nra).
  assert (Zceil n = Zfloor n) as Hceil by (apply Zceil_eq; lra).
  assert (INR (length rows) = n) as Hcount
    by (rewrite INR_IZR_INZ, Hlen, Hceil; lra).
  exists pmt, rows. repeat split; try assumption.
  - apply Forall_forall. intros row Hin.
    apply In_nth_error in Hin as (i & Hi).
    destruct (Hrow i row Hi) as (-> & Hpos & _).
    rewrite no_extra_row_payment by assumption.
    assert (i < length rows)%nat as Hi' by (apply nth_error_Some; congruence).
    assert (0 <= unclamped r pmt P (S i)) as Hnext.
    { destruct (Nat.eq_dec (S i) (length rows)) as [Elast | Hmore].
      - rewrite (unclamped_at_term (S i) HP Hn Hlevel); [lra |].
        now rewrite Elast.
      - destruct (nth_error rows (S i)) as [next|] eqn:Enext;
          [| apply nth_error_None in Enext; lia].
        destruct (Hrow (S i) next Enext) as (_ & Hpos' & _). lra. }
    cbn [unclamped] in Hnext. rewrite Rmin_left; lra.
  - destruct (@payoff_periods P rate years ppy HP Hrate Hyears Hppy)
      as (front & last_row & Hrows' & _ & Hz).
    rewrite Hrows in Hrows'. injection Hrows' as ->.
    unfold final_balance. rewrite length_app. cbn [length].
    replace (length front + 1)%nat with (S (length front)) by lia.
    cbn [prev_balance].
    now rewrite nth_error_app2, Nat.sub_diag by lia.
Qed.

End WholeTermInterest.

(** ** The level payment *)

Section PaymentLaws.

Import Exact.
Local Open Scope R_scope.

(** For rate >= 0 and term > 0, in exact arithmetic, [payment] is
    proportional to the principal: scaling the loan scales the payment. *)
Theorem payment_scales_with_principal (P c rate years : R) (ppy : Z) :
  0 <= rate -> 0 < years -> (0 < ppy)%Z ->
  exists pmt,
    payment P rate years ppy = Ok (PyFloat pmt)
    /\ payment (c * P) rate years ppy = Ok (PyFloat (c * pmt)).
Proof.
  intros Hrate Hyears Hppy.
  pose proof (IZR_lt _ _ Hppy) as Hppy'.
  assert (years * IZR ppy <> 0) as Hn by (simpl in Hppy'; nra).
  destruct (Req_dec_T rate 0) as [-> | Hne].
  - eexists. rewrite !payment_zero_rate by assumption.
    split; [reflexivity |]. do 2 f_equal. unfold Rdiv. ring.
  - destruct (@payment_closed_form P rate years ppy ltac:(lra) Hppy Hyears)
      as [Hpay Hw].
    destruct (@payment_closed_form (c * P) rate years ppy ltac:(lra) Hppy
                Hyears) as [Hpay' _].
    eexists. rewrite Hpay, Hpay'. split; [reflexivity |].
    do 2 f_equal. field. cbv zeta in Hw. lra.
Qed.

Lemma payment_scales_with_principal_witness :
  exists pmt,
    payment 300000 6 30 12 = Ok (PyFloat pmt)
    /\ payment (2 * 300000) 6 30 12 = Ok (PyFloat (2 * pmt)).
Proof.
  apply (@payment_scales_with_principal 300000 2 6 30 12); lra || lia.
Defined.

(** For principal > 0, rate >= 0 and term > 0, in exact arithmetic, the
    payment is more than one period's interest on the whole principal, and
    the payments of the whole term add up to no less than the principal. *)
Theorem payment_covers_interest_and_principal (P rate years : R) (ppy : Z) :
  0 < P -> 0 <= rate -> 0 < years -> (0 < ppy)%Z ->
  exists pmt,
    payment P rate years ppy = Ok (PyFloat pmt)
    /\ P * period_rate rate ppy < pmt
    /\ P <= years * IZR ppy * pmt.
Proof.
  intros HP Hrate Hyears Hppy.
  pose proof (IZR_lt _ _ Hppy) as Hppy'.
  assert (0 < years * IZR ppy) as Hn by (simpl in Hppy'; nra).
  destruct (Req_dec_T rate 0) as [-> | Hne].
  - eexists. rewrite payment_zero_rate by lra. split; [reflexivity |].
    assert (0 < P / (years * IZR ppy)) by now apply Rdiv_lt_0_compat.
    assert (period_rate 0 ppy = 0) as -> by (unfold period_rate, Rdiv; ring).
    split; [lra |]. right.
    set (n := years * IZR ppy) in *. field. lra.
  - destruct (@payment_closed_form P rate years ppy ltac:(lra) Hppy Hyears)
      as [Hpay Hw].
    cbv zeta in Hw, Hpay. eexists. split; [exact Hpay |].
    pose proof (period_rate_sign rate Hppy) as (_ & Hr & _).
    specialize (Hr ltac:(lra)).
    set (r := period_rate rate ppy) in *.
    set (d := 1 - Rpower (1 + r) (- (years * IZR ppy))) in *.
    split.
    + apply Rmult_lt_reg_r with d; [lra |].
      replace (r * P / d * d) with (r * P) by (field; lra).
      assert (0 < P * r) by nra. nra.
    + pose proof (@closed_form_exceeds_straight_line P r (years * IZR ppy)
                    HP Hr Hn) as Hmore.
      fold d in Hmore.
      apply Rmult_lt_compat_l with (r := years * IZR ppy) in Hmore;
        [| assumption].
      replace (years * IZR ppy * (P / (years * IZR ppy))) with P in Hmore
        by (field; lra).
      lra.
Qed.

Lemma payment_covers_interest_and_principal_witness :
  exists pmt,
    payment 300000 6 30 12 = Ok (PyFloat pmt)
    /\ 300000 * period_rate 6 12 < pmt
    /\ 300000 <= 30 * IZR 12 * pmt.
Proof.
  apply (@payment_covers_interest_and_principal 300000 6 30 12); lra || lia.
Defined.

End PaymentLaws.

(** ** Break-even, loan-to-value and upfront costs *)

Section GuardedDivisions.

Import Exact.

(** In double precision a float equal to another is also at most it; so
    a divisor that failed [x <= 0] is not zero. *)
Lemma binary64_eqb_leb (x y : float) :
  PrimFloat.eqb x y = true -> PrimFloat.leb x y = true.
Proof.
  rewrite FloatAxioms.eqb_spec, FloatAxioms.leb_spec.
  unfold SFeqb, SFleb. now destruct (SFcompare _ _) as [[| |]|].
Qed.

Lemma binary64_zero (libm_pow : float -> float -> float) :
  lit (Arith := Binary64.binary64 libm_pow) 0 = 0%float.
Proof. reflexivity. Qed.

(** [break_even_months] and [compute_ltv] never raise, whatever their
    arguments: the guard leaves only divisors that are not zero, in exact
    arithmetic and in double precision. *)
Theorem guarded_divisions_never_raise :
  (forall costs savings : R,
      exists months, break_even_months costs savings = Ok months)
  /\ (forall owed home : R, exists v, compute_ltv owed home = Ok v)
  /\ (forall libm_pow (costs savings : float),
         exists months,
           break_even_months (A := Binary64.binary64 libm_pow) costs savings
           = Ok months)
  /\ (forall libm_pow (owed home : float),
         exists v,
           compute_ltv (A := Binary64.binary64 libm_pow) owed home = Ok v).
Proof.
  split; [| split; [| split]].
  - intros costs savings. unfold break_even_months. exact_ops.
    destruct (R_leb savings 0) eqn:L; [eauto |].
    apply R_leb_gt in L. rewrite truediv_exact by lra. cbn. eauto.
  - intros owed home. unfold compute_ltv. exact_ops.
    destruct (R_leb home 0) eqn:L; [eauto |].
    apply R_leb_gt in L. rewrite truediv_exact by lra. cbn. eauto.
  - intros libm_pow costs savings. unfold break_even_months, truediv.
    rewrite binary64_zero. cbn [leb eqb Binary64.binary64].
    destruct (PrimFloat.leb savings 0) eqn:L; [eauto |].
    destruct (PrimFloat.eqb savings 0) eqn:E; [| cbn; eauto].
    apply binary64_eqb_leb in E. congruence.
  - intros libm_pow owed home. unfold compute_ltv, truediv.
    rewrite binary64_zero. cbn [leb eqb Binary64.binary64].
    destruct (PrimFloat.leb home 0) eqn:L; [eauto |].
    destruct (PrimFloat.eqb home 0) eqn:E; [| cbn; eauto].
    apply binary64_eqb_leb in E. congruence.
Qed.

Local Open Scope R_scope.

(** In exact arithmetic [break_even_months] returns [None] exactly when
    the monthly savings are not positive; otherwise the months it returns,
    times the monthly savings, are the costs, and more savings never mean
    more months for costs that are not negative. *)
Theorem break_even_recovers_costs (costs savings : R) :
  (savings <= 0 -> break_even_months costs savings = Ok None)
  /\ (0 < savings ->
      exists months,
        break_even_months costs savings = Ok (Some months)
        /\ months * savings = costs
        /\ forall more,
            savings <= more -> 0 <= costs ->
            exists sooner,
              break_even_months costs more = Ok (Some sooner)
              /\ sooner <= months).
Proof.
  unfold break_even_months. exact_ops. split.
  - intros H. now rewrite R_leb_true.
  - intros H. rewrite R_leb_false, truediv_exact by lra. cbn [bind].
    eexists. split; [reflexivity |]. split; [field; lra |].
    intros more Hmore Hcosts.
    rewrite R_leb_false, truediv_exact by lra. cbn [bind].
    eexists. split; [reflexivity |].
    unfold Rdiv. apply Rmult_le_compat_l; [assumption |].
    apply Rinv_le_contravar; lra.
Qed.

(** In exact arithmetic [compute_ltv] returns [inf] exactly when the home
    value is not positive; otherwise the ratio it returns, times the home
    value, is the principal owed. *)
Theorem ltv_times_value_is_principal (owed home : R) :
  (home <= 0 -> compute_ltv owed home = Ok (@InfiniteLtv R))
  /\ (0 < home ->
      exists ratio,
        compute_ltv owed home = Ok (Ratio ratio)
        /\ ratio * home = owed).
Proof.
  unfold compute_ltv. exact_ops. split.
  - intros H. now rewrite R_leb_true.
  - intros H. rewrite R_leb_false, truediv_exact by lra. cbn [bind].
    eexists. split; [reflexivity |]. field. lra.
Qed.

(** In exact arithmetic [effective_refi_costs] never raises and never
    returns less than the other closing costs: lender credits beyond the
    cost of the points are lost. Below that, each unit of credit takes a
    unit off, and more credits never cost more. *)
Theorem credits_only_offset_points (offer : RefiOffer R) :
  let points := points_pct_of_loan offer / 100 * new_principal offer in
  exists cost,
    effective_refi_costs offer = Ok cost
    /\ other_closing_costs offer <= cost
    /\ (points <= lender_credits offer -> cost = other_closing_costs offer)
    /\ (lender_credits offer <= points ->
        cost = points - lender_credits offer + other_closing_costs offer)
    /\ forall credits,
        lender_credits offer <= credits ->
        exists cheaper,
          effective_refi_costs
            (mkRefiOffer (new_principal offer) (new_apr_pct offer)
               (term_years offer) (points_pct_of_loan offer) credits
               (other_closing_costs offer) (new_monthly_pmi offer)
               (extra_principal_per_month offer))
          = Ok cheaper
          /\ cheaper <= cost.
Proof.
  destruct offer as [P apr term pts credits other pmi extra].
  intros points. subst points. unfold effective_refi_costs.
  cbn [points_pct_of_loan new_principal lender_credits other_closing_costs
       new_apr_pct term_years new_monthly_pmi extra_principal_per_month].
  exact_ops. rewrite truediv_exact by lra. exact_ops.
  rewrite py_max_Rmax. set (points := pts / 100 * P).
  eexists. split; [reflexivity |].
  repeat split.
  - pose proof (Rmax_r (points - credits) 0). lra.
  - intros H. rewrite Rmax_right by lra. ring.
  - intros H. rewrite Rmax_left by lra. ring.
  - intros credits' Hmore. rewrite py_max_Rmax.
    eexists. split; [reflexivity |].
    unfold Rmax; repeat destruct (Rle_dec _ _); lra.
Qed.

Lemma break_even_recovers_costs_witness :
  exists months,
    break_even_months 3000 150 = Ok (Some months)
    /\ months * 150 = 3000.
Proof.
  destruct (break_even_recovers_costs 3000 150) as [_ H].
  destruct (H ltac:(lra)) as (months & Hm & Hc & _).
  exists months. now split.
Defined.

Lemma ltv_times_value_is_principal_witness :
  exists ratio,
    compute_ltv 240000 300000 = Ok (Ratio ratio)
    /\ ratio * 300000 = 240000.
Proof.
  destruct (ltv_times_value_is_principal 240000 300000) as [_ H].
  apply H. lra.
Defined.

Lemma credits_only_offset_points_witness :
  effective_refi_costs (mkRefiOffer 300000 6 30 1 5000 2000 0 0) = Ok 2000.
Proof.
  pose proof (credits_only_offset_points
                (mkRefiOffer 300000 6 30 1 5000 2000 0 0)) as H.
  cbv zeta in H. destruct H as (cost & Hc & _ & Hlost & _).
  rewrite Hc. f_equal. apply Hlost. cbn. lra.
Defined.

End GuardedDivisions.

(** ** Net present value *)

Section NetPresentValue.

Import Exact.
Local Open Scope R_scope.

Lemma powerRZ_neg_nat (x : R) (k : nat) :
  powerRZ x (- Z.of_nat k) = / x ^ k.
Proof.
  destruct k as [|k]; [simpl; now rewrite Rinv_1 |].
  cbn [Z.of_nat Z.opp powerRZ]. now rewrite SuccNat2Pos.id_succ.
Qed.

(** [npv_of_refi] discounts entry [i] (from 0) by [(1 + rate) ^ (i + 1)]. *)
Lemma npv_present_value (stream : list R) (rate costs : R) :
  npv_of_refi real_np_power stream rate costs
  = present_value (1 + rate) 1 stream - costs.
Proof.
  unfold npv_of_refi. exact_ops. f_equal.
  generalize 1%nat.
  induction stream as [|s rest IH]; intros k; [reflexivity |].
  cbn [length seq map combine fst snd present_value].
  rewrite series_sum_cons, IH. f_equal. f_equal.
  apply powerRZ_neg_nat.
Qed.

Lemma present_value_undiscounted (stream : list R) k :
  present_value 1 k stream = series_sum stream.
Proof.
  revert k. induction stream as [|s rest IH]; intros k; [reflexivity |].
  cbn [present_value]. rewrite series_sum_cons, IH, pow1, Rinv_1. ring.
Qed.

Lemma present_value_monotone (q1 q2 : R) (stream : list R) :
  0 < q1 <= q2 ->
  Forall (fun s => 0 <= s) stream ->
  forall k, 0 <= present_value q2 k stream <= present_value q1 k stream.
Proof.
  intros Hq. induction 1 as [|s rest Hs _ IH]; intros k; [simpl; lra |].
  cbn [present_value]. specialize (IH (S k)).
  assert (0 < q1 ^ k) by (apply pow_lt; lra).
  assert (q1 ^ k <= q2 ^ k) by (apply pow_incr; lra).
  assert (0 < / q2 ^ k) by (apply Rinv_0_lt_compat; lra).
  assert (/ q2 ^ k <= / q1 ^ k) by (apply Rinv_le_contravar; lra).
  assert (0 <= s * / q2 ^ k) by nra.
  assert (s * / q2 ^ k <= s * / q1 ^ k) by nra.
  lra.
Qed.

(** At a discount rate of zero the net present value is the savings added
    up, less the upfront costs. *)
Theorem npv_without_discounting (stream : list R) (costs : R) :
  npv_of_refi real_np_power stream 0 costs = series_sum stream - costs.
Proof.
  rewrite npv_present_value, Rplus_0_r.
  now rewrite present_value_undiscounted.
Qed.

(** For savings that are never negative and discount rates above -100%, a
    higher rate never gives a higher net present value, and the value is
    never below minus the upfront costs. *)
Theorem npv_falls_as_rate_rises (stream : list R) (rate1 rate2 costs : R) :
  Forall (fun s => 0 <= s) stream ->
  -1 < rate1 <= rate2 ->
  - costs <= npv_of_refi real_np_power stream rate2 costs
  /\ npv_of_refi real_np_power stream rate2 costs
     <= npv_of_refi real_np_power stream rate1 costs.
Proof.
  intros Hs Hr. rewrite !npv_present_value.
  pose proof (@present_value_monotone (1 + rate1) (1 + rate2) stream
                ltac:(lra) Hs 1%nat).
  lra.
Qed.

Lemma npv_falls_as_rate_rises_witness :
  - 3000 <= npv_of_refi real_np_power [150; 150; 0] (1 / 100) 3000
  /\ npv_of_refi real_np_power [150; 150; 0] (1 / 100) 3000
     <= npv_of_refi real_np_power [150; 150; 0] 0 3000.
Proof.
  apply (@npv_falls_as_rate_rises [150; 150; 0] 0 (1 / 100) 3000).
  - repeat constructor; lra.
  - lra.
Defined.

End NetPresentValue.

(** ** Paying a loan off *)

Section PayingOff.

Import Exact.
Local Open Scope R_scope.

(** Along a run, the payments discounted at the rate of the loan are worth
    the balance the run started from, less the discounted balance it
    left. *)
Lemma run_present_value (r pmt e : R) m :
  0 < 1 + r ->
  forall rows b p k,
    run r pmt e m b p rows ->
    present_value (1 + r) (S k) (map row_payment rows)
    = b / (1 + r) ^ k
      - final_balance b rows / (1 + r) ^ (k + length rows).
Proof.
  intros Hq. induction rows as [|row rest IH]; intros b p k Hrun.
  - unfold final_balance. cbn [map present_value length prev_balance].
    rewrite Nat.add_0_r. lra.
  - cbn [run] in Hrun. destruct Hrun as (_ & Hrow & Hrest).
    cbn [map present_value]. rewrite final_balance_cons.
    assert (row_payment row = b * (1 + r) - row_balance row) as Hp.
    { rewrite Hrow, loop_body_exact; cbn.
      unfold Rmin, Rmax; repeat destruct (Rle_dec _ _); lra. }
    assert (0 < (1 + r) ^ k) as Hk by now apply pow_lt.
    assert (present_value (1 + r) (S (S k)) (map row_payment rest)
            = row_balance row / (1 + r) ^ S k
              - final_balance (row_balance row) rest
                / (1 + r) ^ (k + length (row :: rest))) as ->.
    { revert Hrest. exact_ops. destruct (R_leb _ _).
      - intros ->. unfold final_balance.
        cbn [map present_value length prev_balance].
        replace (k + 1)%nat with (S k) by lia. lra.
      - intros Hrest. rewrite (IH _ _ (S k) Hrest).
        cbn [length]. now replace (k + S (length rest))%nat
                        with (S k + length rest)%nat by lia. }
    rewrite Hp. cbn [length].
    set (tail := _ / (1 + r) ^ (k + S (length rest))).
    rewrite <- tech_pow_Rmult. field. lra.
Qed.

(** A loan of principal > 0 at a rate >= 0 over a term > 0, with a
    non-negative extra principal: the schedule is returned, has rows, and
    is paid off no later than the schedule without extra principal. *)
Lemma schedule_pays_off (P rate years : R) (ppy : Z) (e : R) :
  0 < P -> 0 <= rate -> 0 < years -> (0 < ppy)%Z -> 0 <= e ->
  let r := period_rate rate ppy in
  let n := years * IZR ppy in
  exists pmt rows,
    payment P rate years ppy = Ok (PyFloat pmt)
    /\ schedule_rows P rate years ppy e = Some (Ok rows)
    /\ run r pmt e (round_half_even n) P 0 rows
    /\ rows <> []
    /\ (Z.of_nat (length rows) <= Zceil n)%Z
    /\ final_balance P rows = 0.
Proof.
  intros HP Hrate Hyears Hppy He r n.
  destruct (@schedule_rows_exact P rate years ppy e Hrate Hppy Hyears)
    as (pmt & rows & Hpay & _ & Hrows & Hrun).
  destruct (@schedule_rows_exact P rate years ppy 0 Hrate Hppy Hyears)
    as (pmt0 & rows0 & Hpay0 & _ & Hrows0 & Hrun0).
  assert (pmt0 = pmt) as -> by congruence.
  fold r n in Hrun, Hrun0.
  set (m := round_half_even n) in *.
  pose proof (IZR_lt _ _ Hppy) as Hppy'.
  assert (0 < n) as Hn by (unfold n; simpl in Hppy'; nra).
  pose proof (period_rate_sign rate Hppy) as (Hr & _).
  specialize (Hr Hrate). fold r in Hr.
  assert (Zceil n - 1 <= m)%Z as Hm.
  { pose proof (round_half_even_bounds n). pose proof (Zceil_bound n).
    assert (Zceil n - 1 <= Zfloor n)%Z
      by (apply Zfloor_lub; rewrite minus_IZR; lra).
    unfold m. lia. }
  assert (1 <= Zceil n)%Z as Hceil.
  { pose proof (Zceil_bound n).
    assert (0 < Zceil n)%Z; [| lia]. apply lt_IZR. simpl. lra. }
  destruct (@payoff_periods P rate years ppy HP Hrate Hyears Hppy)
    as (front0 & last0 & Hrows0' & Hlen0 & _).
  rewrite Hrows0 in Hrows0'. injection Hrows0' as ->.
  destruct (@run_monotone r pmt 0 e m Hr ltac:(lra) _ rows P P 0%Z
              (Rle_refl P) Hrun0 Hrun) as [Hlen _].
  fold n in Hlen0.
  assert (rows <> []) as Hne.
  { intros ->. cbn [run] in Hrun. apply loop_cond_exact_false in Hrun.
    destruct Hrun; [lra | lia]. }
  exists pmt, rows. repeat split; try assumption; [lia |].
  destruct (exists_last Hne) as (front & last_row & ->).
  destruct (run_last _ _ _ _ _ _ _ _ Hrun) as [_ Hlast].
  assert (nth_error (front ++ [last_row]) (length front) = Some last_row)
    as Hnth by (rewrite nth_error_app2, Nat.sub_diag by lia; reflexivity).
  assert (final_balance P (front ++ [last_row]) = row_balance last_row)
    as ->.
  { unfold final_balance. rewrite length_app. cbn [length].
    replace (length front + 1)%nat with (S (length front)) by lia.
    cbn [prev_balance]. now rewrite Hnth. }
  destruct (run_nth _ _ _ _ _ _ _ _ Hrun Hnth) as (E & _).
  pose proof (balance_nonneg r pmt e
                (prev_balance P (front ++ [last_row]) (length front))
                (0 + Z.of_nat (length front))) as Hnn.
  rewrite <- E in Hnn.
  destruct Hlast as [L | L].
  - cbn [lit leb exact] in L. apply R_leb_le in L. lra.
  - apply loop_cond_exact_false in L. destruct L as [L | L]; [lra | lia].
Qed.

(** For principal > 0, rate >= 0, term > 0 and a non-negative extra
    principal, in exact arithmetic, the payment column of the schedule,
    discounted at the per-period rate of the loan, is worth the principal:
    [npv_of_refi] of the payments, with the principal as the upfront cost,
    is zero. *)
Theorem scheduled_payments_are_worth_the_principal (P rate years : R)
    (ppy : Z) (e : R) :
  0 < P -> 0 <= rate -> 0 < years -> (0 < ppy)%Z -> 0 <= e ->
  exists rows,
    schedule_rows P rate years ppy e = Some (Ok rows)
    /\ npv_of_refi real_np_power (map row_payment rows)
         (period_rate rate ppy) P
       = 0.
Proof.
  intros HP Hrate Hyears Hppy He.
  destruct (@schedule_pays_off P rate years ppy e HP Hrate Hyears Hppy He)
    as (pmt & rows & _ & Hrows & Hrun & _ & _ & Hfinal).
  exists rows. split; [assumption |].
  pose proof (period_rate_sign rate Hppy) as (Hr & _).
  specialize (Hr Hrate).
  rewrite npv_present_value.
  rewrite (@run_present_value (period_rate rate ppy) pmt e
             (round_half_even (years * IZR ppy)) ltac:(lra) rows P 0%Z 0%nat
             Hrun).
  rewrite Hfinal. simpl. unfold Rdiv. rewrite Rinv_1. ring.
Qed.

Lemma scheduled_payments_are_worth_the_principal_witness :
  exists rows,
    schedule_rows 300000 6 30 12 250 = Some (Ok rows)
    /\ npv_of_refi real_np_power (map row_payment rows)
         (period_rate 6 12) 300000
       = 0.
Proof.
  apply (@scheduled_payments_are_worth_the_principal 300000 6 30 12 250);
    lra || lia.
Defined.

End PayingOff.

(** ** From two schedules to the savings stream *)

Section SavingsPipeline.

Context {F : Type} {A : Arith F}.

(** The stream over a horizon that is not negative, for two frames that
    carry a payment column. *)
Lemma savings_stream_general (cur_sched new_sched : DataFrame F)
    (months : Z) (cur_pmi new_pmi : F) (cur_pay new_pay : list F) :
  (0 <= months)%Z ->
  well_formed cur_sched -> well_formed new_sched ->
  lookup "payment" (columns cur_sched) = Some cur_pay ->
  lookup "payment" (columns new_sched) = Some new_pay ->
  exists stream,
    build_savings_stream cur_sched new_sched months cur_pmi new_pmi
    = Ok stream
    /\ length stream = Z.to_nat months
    /\ forall i,
        (i < Z.to_nat months)%nat ->
        nth i stream (lit 0)
        = sub (add (nth i cur_pay (lit 0)) cur_pmi)
              (add (nth i new_pay (lit 0)) new_pmi).
Proof.
  intros Hm Hcur Hnew Hc Hn.
  rewrite build_savings_stream_eq, Hc, Hn.
  rewrite <- (lookup_length _ Hcur Hc), <- (lookup_length _ Hnew Hn).
  set (c := horizon_payments cur_pay (length cur_pay) months).
  set (n := horizon_payments new_pay (length new_pay) months).
  assert (length c = Z.to_nat months) as Lc
    by now apply horizon_payments_length.
  assert (length n = Z.to_nat months) as Ln
    by now apply horizon_payments_length.
  unfold np_sub. rewrite !length_map, Lc, Ln, Nat.eqb_refl.
  eexists. split; [reflexivity |]. split.
  - now rewrite length_map, length_combine, !length_map, Lc, Ln, Nat.min_id.
  - intros i Hi.
    rewrite (nth_indep _ (lit 0)
               (sub (fst (add (lit 0) cur_pmi, add (lit 0) new_pmi))
                    (snd (add (lit 0) cur_pmi, add (lit 0) new_pmi))))
      by now rewrite length_map, length_combine, !length_map, Lc, Ln,
                     Nat.min_id.
    rewrite (map_nth (fun p => sub (fst p) (snd p))).
    rewrite combine_nth by now rewrite !length_map, Lc, Ln.
    cbn [fst snd].
    rewrite (map_nth (fun x => add x cur_pmi)),
            (map_nth (fun x => add x new_pmi)).
    unfold c, n. now rewrite !horizon_payments_nth.
Qed.

(** The frame of a schedule that has rows: well formed, with the payments
    of the rows as its payment column. *)
Lemma rows_payment_column (rows : list (Row F)) :
  rows <> [] ->
  well_formed (DataFrame_of_rows rows)
  /\ getitem (DataFrame_of_rows rows) "payment" = Ok (map row_payment rows).
Proof.
  destruct rows as [|row rest]; [now intros H; elim H |]. intros _.
  split; [| reflexivity]. split; cbn [DataFrame_of_rows columns shape0].
  - cbn [map fst]. repeat constructor; cbn; intuition discriminate.
  - repeat constructor; cbn [snd]; now rewrite length_map.
Qed.

(** Under any arithmetic, the schedule of a principal that is not positive
    cannot be compared: with it as the current or as the new schedule,
    [build_savings_stream] raises KeyError on the payment column, whatever
    the other schedule, the horizon and the PMI. *)
Theorem empty_schedule_breaks_savings_stream (principal rate years : F)
    (ppy : Z) (e : F) (df other : DataFrame F) (months : Z)
    (cur_pmi new_pmi : F) :
  ltb (lit 0) principal = false ->
  amortization_schedule principal rate years ppy e = Some (Ok df) ->
  build_savings_stream df other months cur_pmi new_pmi
  = Raise (KeyError "payment")
  /\ build_savings_stream other df months cur_pmi new_pmi
     = Raise (KeyError "payment").
Proof.
  intros Hp Hdf.
  rewrite (@no_principal_no_columns F A principal rate years ppy e df Hp Hdf).
  rewrite !build_savings_stream_eq. cbn [columns lookup].
  split; [reflexivity |].
  now destruct (lookup "payment" (columns other)).
Qed.

End SavingsPipeline.

Section SavingsPipelineExact.

Import Exact.
Local Open Scope R_scope.

Lemma paid_off_schedule :
  amortization_schedule 0 5 30 12 0 = Some (Ok (mkDataFrame 0 [])).
Proof.
  destruct (@schedule_rows_exact 0 5 30 12 0 ltac:(lra) ltac:(lia)
              ltac:(lra)) as (pmt & rows & _ & _ & Hrows & _).
  assert (amortization_schedule 0 5 30 12 0
          = Some (Ok (DataFrame_of_rows rows))) as Hdf
    by (unfold amortization_schedule; now rewrite Hrows).
  rewrite Hdf. do 2 f_equal.
  apply (@no_principal_no_columns R exact 0 5 30 12 0); [| exact Hdf].
  exact_ops. apply R_ltb_false. lra.
Qed.

(** C8, what the code does: the schedule of a loan with nothing owed,
    [amortization_schedule(0, ...)], is a frame without columns, and
    [build_savings_stream] of it against 24 payments of 800, PMI 50 and 25,
    over 30 months raises KeyError on the payment column, in exact
    arithmetic and in double precision, where the claim has 30 entries with
    a current payment of 0. From a frame with an empty payment column the
    call does return them: -775 for months 1-24 and 25 for months 25-30. *)
Theorem savings_stream_of_empty_schedule :
  (amortization_schedule (A := exact) 0 5 30 12 0
   = Some (Ok (mkDataFrame 0 []))
   /\ build_savings_stream (A := exact)
        (mkDataFrame 0 []) (payment_frame (repeat 800 24)) 30 50 25
      = Raise (KeyError "payment"))
  /\ (forall libm_pow,
         amortization_schedule (A := Binary64.binary64 libm_pow)
           0%float 0%float 30%float 12 0%float
         = Some (Ok (mkDataFrame 0 []))
         /\ build_savings_stream (A := Binary64.binary64 libm_pow)
              (mkDataFrame 0 []) (payment_frame (repeat 800%float 24))
              30 50%float 25%float
            = Raise (KeyError "payment"))
  /\ build_savings_stream (A := exact)
       (payment_frame []) (payment_frame (repeat 800 24)) 30 50 25
     = Ok (repeat (-775) 24 ++ repeat 25 6)
  /\ (forall libm_pow,
         build_savings_stream (A := Binary64.binary64 libm_pow)
           (payment_frame []) (payment_frame (repeat 800%float 24))
           30 50%float 25%float
         = Ok (repeat (-775)%float 24 ++ repeat 25%float 6)).
Proof.
  split; [| split; [| split]].
  - split; [exact paid_off_schedule |].
    now rewrite build_savings_stream_eq.
  - intros libm_pow. split; vm_compute; reflexivity.
  - destruct (@savings_stream_general R exact
                (payment_frame []) (payment_frame (repeat 800 24))
                30%Z 50 25 [] (repeat 800 24))
      as (stream & -> & Hlen & Hnth);
      [lia | apply payment_frame_well_formed
           | apply payment_frame_well_formed
           | reflexivity | reflexivity |].
    f_equal. apply nth_ext with (d := lit 0) (d' := lit 0).
    + rewrite Hlen. reflexivity.
    + intros i Hi. rewrite Hlen in Hi. rewrite (Hnth i Hi).
      change (Z.to_nat 30) with 30%nat in Hi.
      do 30 (destruct i as [|i];
             [cbn [nth repeat app]; exact_ops; lra |]).
      lia.
  - intros libm_pow. vm_compute. reflexivity.
Qed.

Lemma empty_schedule_breaks_savings_stream_witness :
  build_savings_stream (mkDataFrame 0 []) (payment_frame [1000; 1000]) 2 0 0
  = Raise (KeyError "payment")
  /\ build_savings_stream (payment_frame [1000; 1000]) (mkDataFrame 0 []) 2
       0 0
     = Raise (KeyError "payment").
Proof.
  apply (@empty_schedule_breaks_savings_stream R exact 0 5 30 12 0).
  - exact_ops. apply R_ltb_false. lra.
  - exact paid_off_schedule.
Defined.

(** For two loans of principal > 0, rate >= 0 and term > 0 with
    non-negative extra principal, and a horizon that is not negative, in
    exact arithmetic: both schedules are returned with a payment column,
    and [build_savings_stream] on them returns one entry for every month of
    the horizon, (current payment + PMI) - (new payment + PMI), a loan that
    is paid off by then paying 0. *)
Theorem schedules_feed_the_savings_stream
    (P1 rate1 years1 e1 P2 rate2 years2 e2 : R) (ppy : Z) (months : Z)
    (cur_pmi new_pmi : R) :
  0 < P1 -> 0 <= rate1 -> 0 < years1 -> 0 <= e1 ->
  0 < P2 -> 0 <= rate2 -> 0 < years2 -> 0 <= e2 ->
  (0 < ppy)%Z -> (0 <= months)%Z ->
  exists cur_sched new_sched cur_pay new_pay stream,
    amortization_schedule P1 rate1 years1 ppy e1 = Some (Ok cur_sched)
    /\ amortization_schedule P2 rate2 years2 ppy e2 = Some (Ok new_sched)
    /\ getitem cur_sched "payment" = Ok cur_pay
    /\ getitem new_sched "payment" = Ok new_pay
    /\ build_savings_stream cur_sched new_sched months cur_pmi new_pmi
       = Ok stream
    /\ length stream = Z.to_nat months
    /\ forall i,
        (i < Z.to_nat months)%nat ->
        nth i stream 0
        = (nth i cur_pay 0 + cur_pmi) - (nth i new_pay 0 + new_pmi).
Proof.
  intros HP1 Hrate1 Hyears1 He1 HP2 Hrate2 Hyears2 He2 Hppy Hm.
  destruct (@schedule_pays_off P1 rate1 years1 ppy e1 HP1 Hrate1 Hyears1
              Hppy He1) as (_ & rows1 & _ & Hrows1 & _ & Hne1 & _).
  destruct (@schedule_pays_off P2 rate2 years2 ppy e2 HP2 Hrate2 Hyears2
              Hppy He2) as (_ & rows2 & _ & Hrows2 & _ & Hne2 & _).
  destruct (rows_payment_column Hne1) as [Hwf1 Hpay1].
  destruct (rows_payment_column Hne2) as [Hwf2 Hpay2].
  assert (lookup "payment" (columns (DataFrame_of_rows rows1))
          = Some (map row_payment rows1)) as Hc1
    by (unfold getitem in Hpay1; destruct (lookup _ _); congruence).
  assert (lookup "payment" (columns (DataFrame_of_rows rows2))
          = Some (map row_payment rows2)) as Hc2
    by (unfold getitem in Hpay2; destruct (lookup _ _); congruence).
  destruct (@savings_stream_general R exact _ _ months cur_pmi new_pmi _ _
              Hm Hwf1 Hwf2 Hc1 Hc2) as (stream & Hstream & Hlen & Hnth).
  exists (DataFrame_of_rows rows1), (DataFrame_of_rows rows2),
    (map row_payment rows1), (map row_payment rows2), stream.
  unfold amortization_schedule. rewrite Hrows1, Hrows2.
  repeat split; assumption.
Qed.

Lemma schedules_feed_the_savings_stream_witness :
  exists cur_sched new_sched cur_pay new_pay stream,
    amortization_schedule 400000 (27 / 4) 27 12 0 = Some (Ok cur_sched)
    /\ amortization_schedule 380000 (23 / 4) 30 12 100 = Some (Ok new_sched)
    /\ getitem cur_sched "payment" = Ok cur_pay
    /\ getitem new_sched "payment" = Ok new_pay
    /\ build_savings_stream cur_sched new_sched 120 50 0 = Ok stream
    /\ length stream = Z.to_nat 120
    /\ forall i,
        (i < Z.to_nat 120)%nat ->
        nth i stream 0 = (nth i cur_pay 0 + 50) - (nth i new_pay 0 + 0).
Proof.
  apply (@schedules_feed_the_savings_stream
           400000 (27 / 4) 27 0 380000 (23 / 4) 30 100 12 120 50 0);
    lra || lia.
Defined.

End SavingsPipelineExact.

(** ** No periods in the year *)

Section NoPeriods.

Import Exact.
Local Open Scope R_scope.

(** With [periods_per_year = 0], in exact arithmetic, [payment] returns
    the principal, whereas [amortization_schedule] and [remaining_balance]
    raise ZeroDivisionError on the per-period rate, whatever the other
    arguments. *)
Theorem zero_periods_per_year (P rate years e : R) (k : Z) :
  payment P rate years 0 = Ok (PyFloat P)
  /\ amortization_schedule P rate years 0 e = Some (Raise ZeroDivisionError)
  /\ remaining_balance P rate years k 0 = Raise ZeroDivisionError.
Proof.
  assert (years * 0 = 0) as Hn by ring.
  split; [| split].
  - unfold payment. exact_ops. now rewrite Hn, R_eqb_true.
  - unfold amortization_schedule, schedule_rows, schedule_setup. exact_ops.
    rewrite truediv_exact by lra. exact_ops.
    now rewrite truediv_zero.
  - unfold remaining_balance. exact_ops.
    rewrite truediv_exact by lra. exact_ops.
    now rewrite truediv_zero.
Qed.

End NoPeriods.

(** ** The payment against the rate and the term *)

Section PaymentMonotone.

Import Exact.
Local Open Scope R_scope.

Lemma present_value_repeat_scale (q c : R) N :
  forall k,
    present_value q k (repeat c N) = c * present_value q k (repeat 1 N).
Proof.
  induction N as [|N IH]; intros k; cbn [repeat present_value]; [ring |].
  rewrite IH. ring.
Qed.

Lemma present_value_repeat_more (q : R) :
  0 < q ->
  forall N1 N2 k,
    (N1 <= N2)%nat ->
    0 <= present_value q k (repeat 1 N1)
      <= present_value q k (repeat 1 N2).
Proof.
  intros Hq. induction N1 as [|N1 IH]; intros N2 k Hle.
  - cbn [repeat present_value]. split; [lra |].
    apply (@present_value_monotone q q (repeat 1 N2) ltac:(lra)).
    clear. induction N2; cbn [repeat]; constructor; [lra | assumption].
  - destruct N2 as [|N2]; [lia |]. cbn [repeat present_value].
    assert (0 < / q ^ k) by (apply Rinv_0_lt_compat; now apply pow_lt).
    specialize (IH N2 (S k) ltac:(lia)). lra.
Qed.

Lemma level_rows_repeat (pmt : R) (rows : list (Row R)) :
  Forall (fun row => row_payment row = pmt) rows ->
  map row_payment rows = repeat pmt (length rows).
Proof.
  induction 1 as [|row rest Hrow _ IH]; [reflexivity |].
  cbn [map length repeat]. now rewrite Hrow, IH.
Qed.

(** Over a whole number [N] of periods the payment is what makes [N]
    payments, discounted at the rate of the loan, worth the principal. *)
Lemma whole_term_annuity (P rate years : R) (ppy : Z) :
  0 < P -> 0 <= rate -> 0 < years -> (0 < ppy)%Z ->
  years * IZR ppy = IZR (Zfloor (years * IZR ppy)) ->
  exists pmt N,
    payment P rate years ppy = Ok (PyFloat pmt)
    /\ 0 < pmt
    /\ INR N = years * IZR ppy
    /\ pmt * present_value (1 + period_rate rate ppy) 1 (repeat 1 N) = P.
Proof.
  intros HP Hrate Hyears Hppy Hwhole.
  destruct (@whole_term_schedule P rate years ppy HP Hrate Hyears Hppy Hwhole)
    as (pmt & rows & Hpay & Hrows & Hcount & Hall & _).
  destruct (@schedule_pays_off P rate years ppy 0 HP Hrate Hyears Hppy
              ltac:(lra))
    as (pmt' & rows' & Hpay' & Hrows' & Hrun & _ & _ & Hfinal).
  assert (pmt' = pmt) as -> by congruence.
  assert (rows' = rows) as -> by congruence.
  destruct (@payment_exact P rate years ppy Hrate Hppy Hyears)
    as (pmt'' & Hpay'' & Hlevel).
  assert (pmt'' = pmt) as -> by congruence.
  pose proof (IZR_lt _ _ Hppy) as Hppy'.
  assert (0 < years * IZR ppy) as Hn by (simpl in Hppy'; nra).
  destruct (level_payment_covers_interest HP Hn Hlevel) as [_ Hpmt].
  pose proof (period_rate_sign rate Hppy) as (Hr & _).
  specialize (Hr Hrate).
  exists pmt, (length rows). repeat split; try assumption.
  rewrite <- present_value_repeat_scale, <- (level_rows_repeat Hall).
  rewrite (@run_present_value (period_rate rate ppy) pmt 0
             (round_half_even (years * IZR ppy)) ltac:(lra) rows P 0%Z 0%nat
             Hrun).
  rewrite Hfinal. simpl. unfold Rdiv. rewrite Rinv_1. ring.
Qed.

(** For principal > 0 and a term of a whole number of periods, in exact
    arithmetic, a higher rate never lowers the payment. *)
Theorem payment_rises_with_rate (P rate1 rate2 years : R) (ppy : Z) :
  0 < P -> 0 <= rate1 <= rate2 -> 0 < years -> (0 < ppy)%Z ->
  years * IZR ppy = IZR (Zfloor (years * IZR ppy)) ->
  exists pmt1 pmt2,
    payment P rate1 years ppy = Ok (PyFloat pmt1)
    /\ payment P rate2 years ppy = Ok (PyFloat pmt2)
    /\ pmt1 <= pmt2.
Proof.
  intros HP Hrate Hyears Hppy Hwhole.
  destruct (@whole_term_annuity P rate1 years ppy HP ltac:(lra) Hyears Hppy
              Hwhole) as (pmt1 & N1 & Hpay1 & Hpos1 & HN1 & Hpv1).
  destruct (@whole_term_annuity P rate2 years ppy HP ltac:(lra) Hyears Hppy
              Hwhole) as (pmt2 & N2 & Hpay2 & Hpos2 & HN2 & Hpv2).
  assert (N2 = N1) as -> by (apply INR_eq; lra).
  exists pmt1, pmt2. split; [assumption |]. split; [assumption |].
  pose proof (period_rate_sign rate1 Hppy) as (Hr1 & _).
  specialize (Hr1 ltac:(lra)).
  assert (period_rate rate1 ppy <= period_rate rate2 ppy) as Hle.
  { unfold period_rate, Rdiv. pose proof (IZR_lt _ _ Hppy) as Hppy'.
    assert (0 < / IZR ppy) by (apply Rinv_0_lt_compat; exact Hppy').
    nra. }
  pose proof (@present_value_monotone (1 + period_rate rate1 ppy)
                (1 + period_rate rate2 ppy) (repeat 1 N1) ltac:(lra)) as Hmono.
  specialize (Hmono ltac:(clear; induction N1; cbn [repeat]; constructor;
                          [lra | assumption]) 1%nat).
  set (a1 := present_value (1 + period_rate rate1 ppy) 1 (repeat 1 N1)) in *.
  set (a2 := present_value (1 + period_rate rate2 ppy) 1 (repeat 1 N1)) in *.
  destruct (Rle_dec pmt1 pmt2) as [|Hgt]; [assumption | exfalso].
  apply Rnot_le_lt in Hgt.
  assert (0 < a2) as Ha2.
  { destruct (Rlt_dec 0 a2) as [|Hz]; [assumption | exfalso].
    assert (a2 = 0) as Hz' by lra. rewrite Hz' in Hpv2. lra. }
  assert (pmt2 * a2 < pmt1 * a2) by (apply Rmult_lt_compat_r; assumption).
  assert (pmt1 * a2 <= pmt1 * a1) by (apply Rmult_le_compat_l; lra).
  lra.
Qed.

Lemma payment_rises_with_rate_witness :
  exists pmt1 pmt2,
    payment 300000 (9 / 2) 30 12 = Ok (PyFloat pmt1)
    /\ payment 300000 (13 / 2) 30 12 = Ok (PyFloat pmt2)
    /\ pmt1 <= pmt2.
Proof.
  apply (@payment_rises_with_rate 300000 (9 / 2) (13 / 2) 30 12);
    try lra; try lia.
  symmetry. replace (30 * IZR 12) with (IZR 360) by (simpl; lra).
  now rewrite ZfloorZ.
Defined.

(** For principal > 0 and rate >= 0, in exact arithmetic, of two terms of
    a whole number of periods the longer one never has the higher
    payment. *)
Theorem payment_falls_with_term (P rate years1 years2 : R) (ppy : Z) :
  0 < P -> 0 <= rate -> 0 < years1 <= years2 -> (0 < ppy)%Z ->
  years1 * IZR ppy = IZR (Zfloor (years1 * IZR ppy)) ->
  years2 * IZR ppy = IZR (Zfloor (years2 * IZR ppy)) ->
  exists pmt1 pmt2,
    payment P rate years1 ppy = Ok (PyFloat pmt1)
    /\ payment P rate years2 ppy = Ok (PyFloat pmt2)
    /\ pmt2 <= pmt1.
Proof.
  intros HP Hrate Hyears Hppy Hwhole1 Hwhole2.
  destruct (@whole_term_annuity P rate years1 ppy HP Hrate ltac:(lra) Hppy
              Hwhole1) as (pmt1 & N1 & Hpay1 & Hpos1 & HN1 & Hpv1).
  destruct (@whole_term_annuity P rate years2 ppy HP Hrate ltac:(lra) Hppy
              Hwhole2) as (pmt2 & N2 & Hpay2 & Hpos2 & HN2 & Hpv2).
  exists pmt1, pmt2. split; [assumption |]. split; [assumption |].
  pose proof (period_rate_sign rate Hppy) as (Hr & _).
  specialize (Hr Hrate).
  assert (N1 <= N2)%nat as Hle.
  { apply INR_le. rewrite HN1, HN2. pose proof (IZR_lt _ _ Hppy) as Hppy'.
    simpl in Hppy'. nra. }
  pose proof (@present_value_repeat_more (1 + period_rate rate ppy)
                ltac:(lra) N1 N2 1%nat Hle) as Hmore.
  set (a1 := present_value (1 + period_rate rate ppy) 1 (repeat 1 N1)) in *.
  set (a2 := present_value (1 + period_rate rate ppy) 1 (repeat 1 N2)) in *.
  destruct (Rle_dec pmt2 pmt1) as [|Hgt]; [assumption | exfalso].
  apply Rnot_le_lt in Hgt.
  assert (0 < a1) as Ha1.
  { destruct (Rlt_dec 0 a1) as [|Hz]; [assumption | exfalso].
    assert (a1 = 0) as Hz' by lra. rewrite Hz' in Hpv1. lra. }
  assert (pmt1 * a1 < pmt2 * a1) by (apply Rmult_lt_compat_r; assumption).
  assert (pmt2 * a1 <= pmt2 * a2) by (apply Rmult_le_compat_l; lra).
  lra.
Qed.

Lemma payment_falls_with_term_witness :
  exists pmt1 pmt2,
    payment 300000 6 15 12 = Ok (PyFloat pmt1)
    /\ payment 300000 6 30 12 = Ok (PyFloat pmt2)
    /\ pmt2 <= pmt1.
Proof.
  apply (@payment_falls_with_term 300000 6 15 30 12); try lra; try lia.
  - symmetry. replace (15 * IZR 12) with (IZR 180) by (simpl; lra).
    now rewrite ZfloorZ.
  - symmetry. replace (30 * IZR 12) with (IZR 360) by (simpl; lra).
    now rewrite ZfloorZ.
Defined.

End PaymentMonotone.
